(** * Tic-Tac-Toe: the game rules, the two bot strategies and the React
      component of [src/components/TicTacToe.tsx], embedded and verified.

    The file follows the source top to bottom:
    - the board and [calculateWinner];
    - [getRandomMove] and [getBestMove] (with its inner [minimax]);
    - the component [TicTacToe]: its state, the values derived at every
      render, its handlers and its two effects.

    Conventions of the embedding.
    - A cell of type [string | null] only ever holds [null], ["X"] or ["O"]:
      it is an [option Mark].  A read [squares[i]] of a JS array is a list
      lookup, whose extra [None] is JS's [undefined].
    - Array writes [a[i] = v] are list inserts.  Every index the program
      writes is one of the nine cell indices of a nine-cell board, where
      the two agree; statements about boards carry [length squares = 9].
    - [Math.floor(Math.random() * n)] is modelled by its result, an index
      [r] supplied by the environment. *)

From Stdlib Require Import ZArith Lia String.
From stdpp Require Import base option list relations.

Open Scope nat_scope.

(** ** Board *)

Inductive Mark := X | O.

#[global] Instance Mark_eq_dec : EqDecision Mark.
Proof. solve_decision. Defined.

Definition other (m : Mark) : Mark :=
  match m with X => O | O => X end.

Abbreviation Cell := (option Mark).
Abbreviation Board := (list (option Mark)).

(** [Array(9).fill(null)] *)
Definition emptyBoard : Board := replicate 9 None.

(** JS truthiness of a value read from a board ([undefined] and [null] are
    falsy, a mark is truthy). *)
Definition truthy (v : option Cell) : bool :=
  match v with
  | Some (Some _) => true
  | _ => false
  end.

(** [===] on values read from a board. *)
Definition strict_eq (v w : option Cell) : bool :=
  match v, w with
  | None, None => true
  | Some None, Some None => true
  | Some (Some X), Some (Some X) => true
  | Some (Some O), Some (Some O) => true
  | _, _ => false
  end.

(** [board.every(Boolean)] *)
Definition every_Boolean (board : Board) : bool :=
  forallb (fun c => truthy (Some c)) board.

(** [squares.some((s) => s === null)] *)
Definition some_null (board : Board) : bool :=
  existsb (fun c => strict_eq (Some c) (Some None)) board.

(** ** calculateWinner *)

Abbreviation Triple := (nat * nat * nat)%type.

Definition lines : list Triple :=
  [ (0, 1, 2);
    (3, 4, 5);
    (6, 7, 8);
    (0, 3, 6);
    (1, 4, 7);
    (2, 5, 8);
    (0, 4, 8);
    (2, 4, 6) ].

(** The non-null case of [WinnerResult]. *)
Record WinnerResult := { winner : Mark; line : Triple }.

(** The [for] loop of [calculateWinner], from position [i] on. *)
Fixpoint scanLines (ls : list Triple) (squares : Board) : option WinnerResult :=
  match ls with
  | [] => None
  | (a, b, c) :: rest =>
      if truthy (squares !! a)
         && strict_eq (squares !! a) (squares !! b)
         && strict_eq (squares !! a) (squares !! c)
      then match squares !! a with
           | Some (Some m) => Some {| winner := m; line := (a, b, c) |}
           | _ => scanLines rest squares
           end
      else scanLines rest squares
  end.

Definition calculateWinner (squares : Board) : option WinnerResult :=
  scanLines lines squares.

(** [result?.winner === mark] *)
Definition winner_is (result : option WinnerResult) (mark : Mark) : bool :=
  match result with
  | Some r => bool_decide (winner r = mark)
  | None => false
  end.

(** The three-way reading of a grid that the component makes wherever it
    needs it (the status line, the score effect, the leaves of [minimax]):
    a winner if [calculateWinner] found one, else a draw if
    [squares.every(Boolean)], else nothing yet. *)
Inductive Outcome :=
  | NoResult
  | Win (mark : Mark) (triple : Triple)
  | Draw.

Definition outcome (squares : Board) : Outcome :=
  match calculateWinner squares with
  | Some r => Win (winner r) (line r)
  | None => if every_Boolean squares then Draw else NoResult
  end.

(** What the return value of [calculateWinner] alone says, read as an
    outcome: the winner and its line, or [null]. *)
Definition result_outcome (result : option WinnerResult) : Outcome :=
  match result with
  | Some r => Win (winner r) (line r)
  | None => NoResult
  end.

(** *** The evaluator as the specification words it *)

Definition row (r : nat) : Triple := (3 * r, 3 * r + 1, 3 * r + 2).
Definition column (c : nat) : Triple := (c, c + 3, c + 6).
Definition diagonals : list Triple := [ (0, 4, 8); (2, 4, 6) ].

(** Rows top to bottom, then columns left to right, then the diagonals. *)
Definition triples_in_order : list Triple :=
  map row [0; 1; 2] ++ map column [0; 1; 2] ++ diagonals.

(** The three cells of [t] hold the same mark [m]. *)
Definition triple_wins (squares : Board) (t : Triple) (m : Mark) : Prop :=
  let '(a, b, c) := t in
  squares !! a = Some (Some m) /\
  squares !! b = Some (Some m) /\
  squares !! c = Some (Some m).

Definition no_win (squares : Board) (t : Triple) : Prop :=
  forall m, ~ triple_wins squares t m.

Definition occupied (squares : Board) (i : nat) : Prop :=
  exists m, squares !! i = Some (Some m).

(** [Win] for the first triple in order that wins, [Draw] on a full grid
    without one, [NoResult] otherwise. *)
Definition evaluate_spec (squares : Board) (o : Outcome) : Prop :=
  match o with
  | Win m t =>
      exists before after,
        triples_in_order = before ++ t :: after /\
        triple_wins squares t m /\
        Forall (no_win squares) before
  | Draw =>
      Forall (no_win squares) triples_in_order /\
      forall i, i < 9 -> occupied squares i
  | NoResult =>
      Forall (no_win squares) triples_in_order /\
      exists i, i < 9 /\ squares !! i = Some None
  end.


(** ** Bot logic *)

(** [squares.map((v, i) => (v === null ? i : null)).filter((v) => v !== null)] *)
Definition emptyCells (squares : Board) : list nat :=
  omap id (imap (fun i v => match v with None => Some i | Some _ => None end) squares).

(** [getRandomMove]; [r] is the drawn [Math.floor(Math.random() * empty.length)],
    and the result is [undefined] when the read is out of range. *)
Definition getRandomMove (squares : Board) (r : nat) : option nat :=
  let empty := emptyCells squares in
  empty !! r.

(** The scores of [minimax] are JS numbers: the leaves give [1], [-1] and
    [0], the running best starts at [-Infinity] or [Infinity]. *)
Inductive Number :=
  | NegInfinity
  | Fin (z : Z)
  | Infinity.

(** [a < b] *)
Definition num_lt (a b : Number) : bool :=
  match a, b with
  | NegInfinity, NegInfinity => false
  | NegInfinity, _ => true
  | Fin _, NegInfinity => false
  | Fin x, Fin y => (x <? y)%Z
  | Fin _, Infinity => true
  | Infinity, _ => false
  end.

(** [a] is at least as good as [b] for the side to move (the bot when
    [isMax]), and strictly better. *)
Definition at_least (isMax : bool) (a b : Number) : Prop :=
  if isMax then num_lt a b = false else num_lt b a = false.

Definition better (isMax : bool) (a b : Number) : Prop :=
  if isMax then num_lt b a = true else num_lt a b = true.

(** [{ score: number; move: number | null }] *)
Record Best := { score : Number; move : option nat }.

Section minimax_loop.

(** The recursive call, the two marks and [isMax] of the enclosing call. *)
Variable rec : Board -> bool -> option (Best * Board).
Variables botMark humanMark : Mark.
Variable isMax : bool.

(** The update of [best] after the recursive call returned [score'] for
    cell [i]. *)
Definition improve (best : Best) (score' : Number) (i : nat) : Best :=
  if isMax then
    if num_lt (score best) score' then {| score := score'; move := Some i |} else best
  else
    if num_lt score' (score best) then {| score := score'; move := Some i |} else best.

(** One iteration of [for (let i = 0; i < 9; i++)].  The board is one
    array, written before the recursive call and written back after it:
    the iteration takes the array as it is and returns it as it leaves
    it, next to the running [best]. *)
Definition visit (i : nat) (st : Best * Board) : option (Best * Board) :=
  let '(best, board) := st in
  if negb (truthy (board !! i)) then
    let board1 := <[i := Some (if isMax then botMark else humanMark)]> board in
    match rec board1 (negb isMax) with
    | None => None
    | Some (r, board2) =>
        let board3 := <[i := None]> board2 in
        Some (improve best (score r) i, board3)
    end
  else Some (best, board).

(** The recursive call of the iteration for cell [i]. *)
Definition child (board : Board) (i : nat) : option (Best * Board) :=
  rec (<[i := Some (if isMax then botMark else humanMark)]> board) (negb isMax).

Fixpoint loop (idxs : list nat) (st : Best * Board) : option (Best * Board) :=
  match idxs with
  | [] => Some st
  | i :: rest =>
      match visit i st with
      | None => None
      | Some st' => loop rest st'
      end
  end.

End minimax_loop.

(** The inner function [minimax] of [getBestMove].  [fuel] bounds the depth
    of the recursion ([None] when it runs out, see [minimax_total]); the
    result carries the board as the call leaves it. *)
Fixpoint minimax (fuel : nat) (botMark humanMark : Mark)
    (board : Board) (isMax : bool) : option (Best * Board) :=
  match fuel with
  | 0 => None
  | S fuel' =>
      let result := calculateWinner board in
      if winner_is result botMark then Some ({| score := Fin 1; move := None |}, board)
      else if winner_is result humanMark then Some ({| score := Fin (-1); move := None |}, board)
      else if every_Boolean board then Some ({| score := Fin 0; move := None |}, board)
      else
        let best := {| score := if isMax then NegInfinity else Infinity; move := None |} in
        loop (minimax fuel' botMark humanMark) botMark humanMark isMax (seq 0 9) (best, board)
  end.

(** Each nested call fills one more of the nine cells. *)
Definition searchFuel : nat := 10.

(** [minimax([...squares], true).move ?? getRandomMove(squares)] *)
Definition getBestMove (squares : Board) (botMark humanMark : Mark) (r : nat) : option nat :=
  match minimax searchFuel botMark humanMark squares true with
  | Some (best, _) =>
      match move best with
      | Some m => Some m
      | None => getRandomMove squares r
      end
  | None => None
  end.

(** The score the search gives to the bot's move on cell [i]. *)
Definition subtreeScore (botMark humanMark : Mark) (squares : Board) (i : nat)
  : option Number :=
  match minimax searchFuel botMark humanMark (<[i := Some botMark]> squares) false with
  | Some (r, _) => Some (score r)
  | None => None
  end.

(** *** Play against the bot

    A position is a board and whose move it is.  While the game is on (no
    winner, a free cell), the bot answers with [getBestMove] and the human
    with any free cell. *)

Definition inPlay (squares : Board) : bool :=
  negb (bool_decide (is_Some (calculateWinner squares))) && some_null squares.

Inductive play_step (botMark humanMark : Mark) : Board * bool -> Board * bool -> Prop :=
  | bot_moves squares r m :
      inPlay squares = true ->
      getBestMove squares botMark humanMark r = Some m ->
      play_step botMark humanMark (squares, true) (<[m := Some botMark]> squares, false)
  | human_moves squares c :
      inPlay squares = true ->
      squares !! c = Some None ->
      play_step botMark humanMark (squares, false) (<[c := Some humanMark]> squares, true).

(** The number of free cells of a board. *)
Fixpoint countNull (board : Board) : nat :=
  match board with
  | [] => 0
  | None :: rest => S (countNull rest)
  | Some _ :: rest => countNull rest
  end.

Definition wonBy (mark : Mark) (squares : Board) : Prop :=
  exists r, calculateWinner squares = Some r /\ winner r = mark.

(** The search scores the position, with the bot to move, at 0 or more. *)
Definition not_lost (botMark humanMark : Mark) (squares : Board) : Prop :=
  exists best board',
    minimax searchFuel botMark humanMark squares true = Some (best, board') /\
    num_lt (score best) (Fin 0) = false.

(** The same for either side to move and whatever depth the search is
    given: the invariant of play against the bot. *)
Definition safe (botMark humanMark : Mark) (botToMove : bool) (squares : Board) : Prop :=
  exists fuel best board',
    minimax fuel botMark humanMark squares botToMove = Some (best, board') /\
    num_lt (score best) (Fin 0) = false.

(** The test of [not_lost]. *)
Definition not_lostb (botMark humanMark : Mark) (squares : Board) : bool :=
  match minimax searchFuel botMark humanMark squares true with
  | Some (best, _) => negb (num_lt (score best) (Fin 0))
  | None => false
  end.

(** Boards that legal alternating play (X first, as [handleClick] places
    the marks) reaches from the empty board, with the mark to move next. *)
Inductive legal : Board -> Mark -> Prop :=
  | legal_start : legal emptyBoard X
  | legal_move squares mark c :
      legal squares mark ->
      inPlay squares = true ->
      squares !! c = Some None ->
      legal (<[c := Some mark]> squares) (other mark).

(** ** The component [TicTacToe] *)

Inductive Mode := human | bot.
Inductive Difficulty := easy | hard.

#[global] Instance Mode_eq_dec : EqDecision Mode.
Proof. solve_decision. Defined.

(** [{ X: string; O: string }] *)
Record Names := { nameX : string; nameO : string }.

(** [{ X: number; O: number; Draw: number }]; the counters only ever grow
    by one from zero. *)
Record Scores := { scoreX : nat; scoreO : nat; scoreDraw : nat }.

(** [winnerResult?.winner || null] *)
Definition winner_of (result : option WinnerResult) : option Mark :=
  winner <$> result.

Module TicTacToe.

(** *** State: the eight [useState] cells *)

Record State := {
  history : list Board;
  step : nat;
  xIsNext : bool;
  mode : Mode;
  difficulty : Difficulty;
  names : Names;
  editingNames : bool;
  scores : Scores;
}.

Definition initialState : State :=
  {| history := [emptyBoard];
     step := 0;
     xIsNext := true;
     mode := human;
     difficulty := easy;
     names := {| nameX := "Player X"%string; nameO := "Player O"%string |};
     editingNames := false;
     scores := {| scoreX := 0; scoreO := 0; scoreDraw := 0 |} |}.

(** The setters, one per state cell. *)
Definition setHistory (h : list Board) (s : State) : State :=
  {| history := h; step := step s; xIsNext := xIsNext s; mode := mode s;
     difficulty := difficulty s; names := names s;
     editingNames := editingNames s; scores := scores s |}.

Definition setStep (n : nat) (s : State) : State :=
  {| history := history s; step := n; xIsNext := xIsNext s; mode := mode s;
     difficulty := difficulty s; names := names s;
     editingNames := editingNames s; scores := scores s |}.

Definition setXIsNext (b : bool) (s : State) : State :=
  {| history := history s; step := step s; xIsNext := b; mode := mode s;
     difficulty := difficulty s; names := names s;
     editingNames := editingNames s; scores := scores s |}.

Definition setMode (m : Mode) (s : State) : State :=
  {| history := history s; step := step s; xIsNext := xIsNext s; mode := m;
     difficulty := difficulty s; names := names s;
     editingNames := editingNames s; scores := scores s |}.

Definition setDifficulty (d : Difficulty) (s : State) : State :=
  {| history := history s; step := step s; xIsNext := xIsNext s; mode := mode s;
     difficulty := d; names := names s;
     editingNames := editingNames s; scores := scores s |}.

Definition setNames (f : Names -> Names) (s : State) : State :=
  {| history := history s; step := step s; xIsNext := xIsNext s; mode := mode s;
     difficulty := difficulty s; names := f (names s);
     editingNames := editingNames s; scores := scores s |}.

Definition setEditingNames (f : bool -> bool) (s : State) : State :=
  {| history := history s; step := step s; xIsNext := xIsNext s; mode := mode s;
     difficulty := difficulty s; names := names s;
     editingNames := f (editingNames s); scores := scores s |}.

Definition setScores (f : Scores -> Scores) (s : State) : State :=
  {| history := history s; step := step s; xIsNext := xIsNext s; mode := mode s;
     difficulty := difficulty s; names := names s;
     editingNames := editingNames s; scores := f (scores s) |}.

(** *** Values derived at every render

    [history[step]] is [undefined] when [step] is out of range, and the
    render then throws in [calculateWinner]: such a state shows no board
    and has no handlers, so everything that reads [squares] is partial. *)

Definition squares (s : State) : option Board := history s !! step s.

Definition winnerResult (s : State) : option (option WinnerResult) :=
  calculateWinner <$> squares s.

Definition winner (s : State) : option (option Mark) :=
  winner_of <$> winnerResult s.

(** [step === history.length - 1] *)
Definition isLatestStep (s : State) : bool :=
  bool_decide (Z.of_nat (step s) = (Z.of_nat (length (history s)) - 1)%Z).

(** [mode === "bot" && isLatestStep && !winner &&
     squares.some((s) => s === null) && !xIsNext] *)
Definition isBotTurn (s : State) : option bool :=
  sq ← squares s;
  w ← winner s;
  Some (bool_decide (mode s = bot) && isLatestStep s
        && negb (bool_decide (is_Some w)) && some_null sq && negb (xIsNext s)).

(** *** Handlers *)

Definition handleClick (i : nat) (s : State) : option State :=
  sq ← squares s;
  w ← winner s;
  if truthy (sq !! i) || bool_decide (is_Some w) then Some s
  else
    let nextSquares := <[i := Some (if xIsNext s then X else O)]> sq in
    let nextHistory := take (step s + 1) (history s) ++ [nextSquares] in
    Some (setXIsNext (negb (xIsNext s))
            (setStep (length nextHistory - 1)
               (setHistory nextHistory s))).

Definition handleReset (s : State) : State :=
  setXIsNext true (setStep 0 (setHistory [emptyBoard] s)).

Definition handleModeChange (newMode : Mode) (s : State) : State :=
  setXIsNext true (setStep 0 (setHistory [emptyBoard] (setMode newMode s))).

Definition handleDifficultyChange (newDiff : Difficulty) (s : State) : State :=
  handleReset (setDifficulty newDiff s).

Definition jumpTo (move : nat) (s : State) : State :=
  setXIsNext (bool_decide (move mod 2 = 0)) (setStep move s).

Definition handleNameChange (mark : Mark) (value : string) (s : State) : State :=
  setNames (fun prev =>
              match mark with
              | X => {| nameX := value; nameO := nameO prev |}
              | O => {| nameX := nameX prev; nameO := value |}
              end) s.

(** *** Bot move effect

    While [isBotTurn] holds a timer is pending; when it fires, [makeMove]
    picks a cell from the empty ones with the drawn index [r] and clicks
    it.  Without [isBotTurn] no timer is pending, and a draw [r] beyond
    the empty cells does not exist: both give [None]. *)
Definition makeMove (r : nat) (s : State) : option State :=
  sq ← squares s;
  b ← isBotTurn s;
  if (b : bool) then
    let empty := emptyCells sq in
    if bool_decide (length empty = 0) then Some s
    else
      move ← empty !! r;
      handleClick move s
  else None.

(** The cells [makeMove] can click in a state. *)
Definition botMoves (s : State) : list nat :=
  match squares s, isBotTurn s with
  | Some sq, Some true => emptyCells sq
  | _, _ => []
  end.

(** *** Score tracking effect *)

(** The body of the effect. *)
Definition scoreEffect (s : State) : option State :=
  sq ← squares s;
  w ← winner s;
  match w with
  | Some X => Some (setScores (fun prev =>
      {| scoreX := scoreX prev + 1; scoreO := scoreO prev; scoreDraw := scoreDraw prev |}) s)
  | Some O => Some (setScores (fun prev =>
      {| scoreX := scoreX prev; scoreO := scoreO prev + 1; scoreDraw := scoreDraw prev |}) s)
  | None =>
      if every_Boolean sq then Some (setScores (fun prev =>
        {| scoreX := scoreX prev; scoreO := scoreO prev; scoreDraw := scoreDraw prev + 1 |}) s)
      else Some s
  end.

(** *** The component as a transition system

    A mounted component is its state together with the dependency array
    [[winner, step]] of the score effect at the last render, which React
    keeps to decide whether the effect runs again. *)
Record Component := {
  state : State;
  scoreDeps : option (option Mark * nat);
}.

(** Render a new state and run the score effect if its dependencies
    changed.  The [setScores] of the effect renders once more, with the same
    dependencies. *)
Definition commit (prevDeps : option (option Mark * nat)) (s : State) : option Component :=
  w ← winner s;
  let deps := (w, step s) in
  if bool_decide (prevDeps = Some deps) then
    Some {| state := s; scoreDeps := Some deps |}
  else
    s' ← scoreEffect s;
    Some {| state := s'; scoreDeps := Some deps |}.

Definition mount : option Component := commit None initialState.

Inductive Event :=
  | Select (i : nat)
  | Reset
  | SetMode (newMode : Mode)
  | SetDifficulty (newDiff : Difficulty)
  | JumpTo (move : nat)
  | RenameMark (mark : Mark) (value : string)
  | ToggleEditNames
  | BotTimer (r : nat).

Definition handle (e : Event) (s : State) : option State :=
  match e with
  | Select i => handleClick i s
  | Reset => Some (handleReset s)
  | SetMode newMode => Some (handleModeChange newMode s)
  | SetDifficulty newDiff => Some (handleDifficultyChange newDiff s)
  | JumpTo move => Some (jumpTo move s)
  | RenameMark mark value => Some (handleNameChange mark value s)
  | ToggleEditNames => Some (setEditingNames negb s)
  | BotTimer r => makeMove r s
  end.

(** One event: its handler, then the render and the effects. *)
Definition dispatch (e : Event) (c : Component) : option Component :=
  s' ← handle e (state c);
  commit (scoreDeps c) s'.

Fixpoint run (es : list Event) (c : Component) : option Component :=
  match es with
  | [] => Some c
  | e :: rest => c' ← dispatch e c; run rest c'
  end.

End TicTacToe.

(** ** Concrete boards and auxiliary predicates of the statements *)

(** A full board without a winning triple, for the examples. *)
Definition drawnBoard : Board :=
  [ Some X; Some O; Some X;
    Some X; Some O; Some O;
    Some O; Some X; Some X ].

(** X holds 0, 3 and 4 and threatens both 5 and 6; O holds 1 and 8 and is
    to move. *)
Definition lostBoard : Board :=
  [ Some X; Some O; None;
    Some X; Some X; None;
    None;   None;   Some O ].

Module Frame.
Import TicTacToe.

(** [s'] is [s] up to the score tally. *)
Definition same_but_scores (s s' : State) : Prop :=
  history s' = history s /\
  step s' = step s /\
  xIsNext s' = xIsNext s /\
  mode s' = mode s /\
  difficulty s' = difficulty s /\
  names s' = names s /\
  editingNames s' = editingNames s.

(** The same component with another difficulty value. *)
Definition with_difficulty (d : Difficulty) (c : Component) : Component :=
  {| state := setDifficulty d (state c); scoreDeps := scoreDeps c |}.

(** A win by X in five clicks, then a look back and forth in the history. *)
Definition xWinsGame : list Event :=
  [Select 0; Select 4; Select 1; Select 5; Select 2].

Definition lookBack : list Event := [JumpTo 4; JumpTo 5].

(** The components these runs lead to, evaluated once. *)
Definition mounted : Component :=
  Eval vm_compute in default {| state := initialState; scoreDeps := None |} mount.

Definition afterXWins : Component :=
  Eval vm_compute in default mounted (mount ≫= run xWinsGame).

Definition afterLookBack : Component :=
  Eval vm_compute in default mounted (run lookBack afterXWins).

(** One move, then a jump back to the start; and a click there. *)
Definition staleView : Component :=
  Eval vm_compute in default mounted (mount ≫= run [Select 0; JumpTo 0]).

Definition staleClicked : Component :=
  Eval vm_compute in default mounted (dispatch (Select 1) staleView).

(** Against the bot, difficulty hard, after the human's first move. *)
Definition hardBotTurn : Component :=
  Eval vm_compute in
    default mounted (mount ≫= run [SetMode bot; SetDifficulty hard; Select 0]).

End Frame.

(** ** Further notions: forced wins, mark counts, the buttons and the status line *)

(** The number of cells that hold [mark]. *)
Fixpoint countMark (mark : Mark) (board : Board) : nat :=
  match board with
  | [] => 0
  | c :: rest => (if bool_decide (c = Some mark) then 1 else 0) + countMark mark rest
  end.

(** The mark [handleClick] places when [k] marks are on the board: X first. *)
Definition markAt (k : nat) : Mark := if Nat.even k then X else O.

(** The search, at whatever depth it is given, scores the position at
    [bound] or more. *)
Definition scored_at_least (bound : Z) (botMark humanMark : Mark)
    (botToMove : bool) (squares : Board) : Prop :=
  exists fuel best board',
    minimax fuel botMark humanMark squares botToMove = Some (best, board') /\
    num_lt (score best) (Fin bound) = false.

(** The human can force a win: a win is on the board, or every move of the
    bot, or some move of the human, leads to a position with a forced win. *)
Inductive human_forces_win (botMark humanMark : Mark) : bool -> Board -> Prop :=
  | forced_won botToMove squares :
      wonBy humanMark squares ->
      human_forces_win botMark humanMark botToMove squares
  | forced_bot squares :
      inPlay squares = true ->
      (forall c, squares !! c = Some None ->
         human_forces_win botMark humanMark false (<[c := Some botMark]> squares)) ->
      human_forces_win botMark humanMark true squares
  | forced_human squares c :
      inPlay squares = true ->
      squares !! c = Some None ->
      human_forces_win botMark humanMark true (<[c := Some humanMark]> squares) ->
      human_forces_win botMark humanMark false squares.

(** O holds 3 and 4 and can complete the middle row; X holds 0, 1 and 8. *)
Definition winnableBoard : Board :=
  [ Some X; Some X; None;
    Some O; Some O; None;
    None;   None;   Some X ].

Module View.
Import TicTacToe Frame.


(** [names[winner as "X" | "O"]] *)
Definition nameOf (mark : Mark) (n : Names) : string :=
  match mark with X => nameX n | O => nameO n end.

(** The status line. *)
Definition status (s : State) : option string :=
  sq ← squares s;
  w ← winner s;
  Some (match w with
        | Some mark => "Winner: " ++ nameOf mark (names s)
        | None =>
            if every_Boolean sq then "Draw!"
            else "Next: " ++ (if xIsNext s then nameX (names s)
                              else if bool_decide (mode s = bot) then "Bot (O)"
                              else nameO (names s))
        end)%string.

(** The events the interface can raise: the board has the nine buttons
    0..8. *)
Definition validEvent (e : Event) : Prop :=
  match e with
  | Select i => i < 9
  | _ => True
  end.

(** The components that sequences of such events lead to. *)
Definition reachable (c : Component) : Prop :=
  exists es, Forall validEvent es /\ mount ≫= run es = Some c.

(** The events whose handler sets the state to values that depend on the
    event alone, or that is refused once it has been applied. *)
Definition repeatable (e : Event) : Prop :=
  match e with
  | Select i => i < 9
  | ToggleEditNames | BotTimer _ => False
  | _ => True
  end.

(** One more in the counter of the outcome. *)
Definition tally (o : Outcome) (sc : Scores) : Scores :=
  match o with
  | Win X _ => {| scoreX := scoreX sc + 1; scoreO := scoreO sc; scoreDraw := scoreDraw sc |}
  | Win O _ => {| scoreX := scoreX sc; scoreO := scoreO sc + 1; scoreDraw := scoreDraw sc |}
  | Draw => {| scoreX := scoreX sc; scoreO := scoreO sc; scoreDraw := scoreDraw sc + 1 |}
  | NoResult => sc
  end.

(** Each entry of the history after the first comes from the one before by
    one placement, of the mark whose turn it is, on a free cell of a grid
    without winner. *)
Definition placements (h : list Board) : Prop :=
  forall k sq sq',
    h !! k = Some sq -> h !! S k = Some sq' ->
    exists cell,
      sq !! cell = Some None /\
      calculateWinner sq = None /\
      sq' = <[cell := Some (markAt k)]> sq.

(** What every event keeps of the game. *)
Definition gameInvariant (s : State) : Prop :=
  step s < length (history s) /\
  xIsNext s = Nat.even (step s) /\
  history s !! 0 = Some emptyBoard /\
  placements (history s).

(** The game invariant, and the dependencies of the score effect are those
    of the state shown. *)
Definition invariant (c : Component) : Prop :=
  gameInvariant (state c) /\
  exists w, winner (state c) = Some w /\ scoreDeps c = Some (w, step (state c)).

(** Four clicks into the game that X wins with the fifth; and the turn of
    the bot after the human's first move. *)
Definition beforeXWins : Component :=
  Eval vm_compute in
    default mounted (mount ≫= run [Select 0; Select 4; Select 1; Select 5]).

Definition botToMove : Component :=
  Eval vm_compute in default mounted (mount ≫= run [SetMode bot; Select 0]).

End View.
(** ** Results about the board and the evaluator *)

Lemma truthy_Some (v : option Cell) :
  truthy v = true <-> exists m, v = Some (Some m).
Proof.
  split.
  - destruct v as [[m|]|]; simpl; try discriminate. eauto.
  - intros [m ->]. reflexivity.
Qed.

Lemma strict_eq_true (v w : option Cell) : strict_eq v w = true <-> v = w.
Proof.
  split.
  - destruct v as [[[]|]|], w as [[[]|]|]; simpl; congruence.
  - intros <-. destruct v as [[[]|]|]; reflexivity.
Qed.

Lemma lines_in_order : lines = triples_in_order.
Proof. reflexivity. Qed.

(** The test of one loop iteration is the winning condition of the triple. *)
Lemma line_test_wins (squares : Board) (a b c : nat) :
  truthy (squares !! a)
    && strict_eq (squares !! a) (squares !! b)
    && strict_eq (squares !! a) (squares !! c) = true
  <-> exists m, triple_wins squares (a, b, c) m.
Proof.
  rewrite !andb_true_iff, truthy_Some, !strict_eq_true. split.
  - intros [[[m Ha] Hb] Hc]. exists m. simpl. rewrite <- Hb, <- Hc. auto.
  - intros [m (Ha & Hb & Hc)]. rewrite Ha, Hb, Hc. eauto.
Qed.

Lemma scanLines_Some (ls : list Triple) (squares : Board) (r : WinnerResult) :
  scanLines ls squares = Some r ->
  exists before after,
    ls = before ++ line r :: after /\
    triple_wins squares (line r) (winner r) /\
    Forall (no_win squares) before.
Proof.
  induction ls as [|[[a b] c] rest IH]; simpl; [discriminate|].
  destruct (truthy (squares !! a) && strict_eq (squares !! a) (squares !! b)
            && strict_eq (squares !! a) (squares !! c)) eqn:Htest.
  - apply line_test_wins in Htest as [m Hm].
    pose proof Hm as (Ha & _ & _). rewrite Ha.
    intros [= <-]. exists [], rest. simpl. auto.
  - intros Hrest. destruct (IH Hrest) as (before & after & -> & Hw & Hno).
    exists ((a, b, c) :: before), after. repeat split; auto.
    constructor; [|exact Hno].
    intros m Hm. assert (Hex : exists m, triple_wins squares (a, b, c) m) by eauto.
    apply line_test_wins in Hex. congruence.
Qed.

Lemma scanLines_None (ls : list Triple) (squares : Board) :
  scanLines ls squares = None -> Forall (no_win squares) ls.
Proof.
  induction ls as [|[[a b] c] rest IH]; simpl; [constructor|].
  destruct (truthy (squares !! a) && strict_eq (squares !! a) (squares !! b)
            && strict_eq (squares !! a) (squares !! c)) eqn:Htest.
  - apply line_test_wins in Htest as [m Hm].
    pose proof Hm as (Ha & _ & _). rewrite Ha. discriminate.
  - intros Hrest. constructor; [|auto].
    intros m Hm. assert (Hex : exists m, triple_wins squares (a, b, c) m) by eauto.
    apply line_test_wins in Hex. congruence.
Qed.

Lemma every_Boolean_true (squares : Board) :
  every_Boolean squares = true <->
  forall i, i < length squares -> occupied squares i.
Proof.
  unfold every_Boolean, occupied. rewrite forallb_forall. split.
  - intros H i Hi. destruct (lookup_lt_is_Some_2 squares i Hi) as [c Hc].
    assert (Hin : In c squares).
    { apply list_elem_of_In, list_elem_of_lookup. eauto. }
    apply H, truthy_Some in Hin as [m [= ->]]. eauto.
  - intros H c Hin. apply list_elem_of_In, list_elem_of_lookup in Hin as [i Hi].
    destruct (H i) as [m Hm]; [eapply lookup_lt_Some; eauto|].
    rewrite Hi in Hm. injection Hm as ->. reflexivity.
Qed.

Lemma every_Boolean_false (squares : Board) :
  every_Boolean squares = false ->
  exists i, i < length squares /\ squares !! i = Some None.
Proof.
  unfold every_Boolean. induction squares as [|c rest IH]; simpl; [discriminate|].
  destruct c as [m|]; simpl.
  - intros H. destruct (IH H) as (i & Hi & Hl). exists (S i). split; [lia|exact Hl].
  - intros _. exists 0. split; [lia|reflexivity].
Qed.

Lemma triple_wins_mark (squares : Board) (t : Triple) (m m' : Mark) :
  triple_wins squares t m -> triple_wins squares t m' -> m = m'.
Proof.
  destruct t as [[a b] c]. intros (Ha & _) (Ha' & _). congruence.
Qed.

(** The first winning triple of a list is unique. *)
Lemma first_win_unique (squares : Board) (before before' after after' : list Triple)
    (t t' : Triple) (m m' : Mark) :
  before ++ t :: after = before' ++ t' :: after' ->
  triple_wins squares t m -> Forall (no_win squares) before ->
  triple_wins squares t' m' -> Forall (no_win squares) before' ->
  t = t' /\ m = m'.
Proof.
  revert before'. induction before as [|u before IH]; intros [|u' before']; simpl.
  - intros [= -> _] Hw _ Hw' _. split; [reflexivity|]. eapply triple_wins_mark; eauto.
  - intros [= <- _] Hw _ _ Hno. inversion Hno as [|? ? Hu _]. destruct (Hu m Hw).
  - intros [= -> _] _ Hno Hw' _. inversion Hno as [|? ? Hu _]. destruct (Hu m' Hw').
  - intros [= _ Heq] Hw Hno Hw' Hno'.
    inversion Hno; inversion Hno'; subst. eapply IH; eauto.
Qed.

Lemma win_in_order_not_all_lose (squares : Board) (before after : list Triple)
    (t : Triple) (m : Mark) :
  triple_wins squares t m ->
  ~ Forall (no_win squares) (before ++ t :: after).
Proof.
  intros Hw Hall. apply Forall_app in Hall as [_ Hall].
  inversion Hall as [|? ? Ht _]. exact (Ht m Hw).
Qed.

(** The specification's wording determines the outcome. *)
Lemma evaluate_spec_unique (squares : Board) (o o' : Outcome) :
  evaluate_spec squares o -> evaluate_spec squares o' -> o = o'.
Proof.
  destruct o as [|m t|], o' as [|m' t'|]; simpl; try reflexivity.
  - intros [Hall _] (before & after & Heq & Hw & _).
    rewrite Heq in Hall. destruct (win_in_order_not_all_lose _ _ _ _ _ Hw Hall).
  - intros [_ (i & Hi & Hnull)] [_ Hocc].
    destruct (Hocc i Hi) as [m Hm]. congruence.
  - intros (before & after & Heq & Hw & _) [Hall _].
    rewrite Heq in Hall. destruct (win_in_order_not_all_lose _ _ _ _ _ Hw Hall).
  - intros (before & after & Heq & Hw & Hno) (before' & after' & Heq' & Hw' & Hno').
    rewrite Heq in Heq'.
    destruct (first_win_unique _ _ _ _ _ _ _ _ _ Heq' Hw Hno Hw' Hno') as [-> ->].
    reflexivity.
  - intros (before & after & Heq & Hw & _) [Hall _].
    rewrite Heq in Hall. destruct (win_in_order_not_all_lose _ _ _ _ _ Hw Hall).
  - intros [_ Hocc] [_ (i & Hi & Hnull)].
    destruct (Hocc i Hi) as [m Hm]. congruence.
  - intros [Hall _] (before & after & Heq & Hw & _).
    rewrite Heq in Hall. destruct (win_in_order_not_all_lose _ _ _ _ _ Hw Hall).
Qed.

(** The component's reading of a nine-cell grid is the outcome the
    specification words. *)
Lemma outcome_evaluate_spec (squares : Board) :
  length squares = 9 -> evaluate_spec squares (outcome squares).
Proof.
  intros Hlen. unfold outcome, calculateWinner.
  destruct (scanLines lines squares) as [r|] eqn:Hscan.
  - apply scanLines_Some in Hscan. exact Hscan.
  - apply scanLines_None in Hscan.
    destruct (every_Boolean squares) eqn:Hfull; simpl; (split; [exact Hscan|]).
    + intros i Hi. apply every_Boolean_true; [exact Hfull|lia].
    + apply every_Boolean_false in Hfull as (i & Hi & Hnull).
      exists i. split; [lia|exact Hnull].
Qed.

(** C2, as stated, fails on the code: on a full grid without a winning
    triple the specification's outcome is a draw, yet [calculateWinner]
    returns [null] there, the very value it returns on the empty grid. *)
Lemma calculateWinner_draw_counterexample :
  length drawnBoard = 9 /\
  evaluate_spec drawnBoard Draw /\
  calculateWinner drawnBoard = None /\
  calculateWinner emptyBoard = None /\
  ~ evaluate_spec drawnBoard (result_outcome (calculateWinner drawnBoard)).
Proof.
  assert (Hdraw : evaluate_spec drawnBoard Draw).
  { pose proof (outcome_evaluate_spec drawnBoard eq_refl) as H. exact H. }
  repeat split; try reflexivity; try exact (proj1 Hdraw); try exact (proj2 Hdraw).
  intros Hnone. pose proof (evaluate_spec_unique _ _ _ Hdraw Hnone). discriminate.
Qed.

(** C2, amended: on a nine-cell grid [calculateWinner] scans the eight
    triples in the order rows, columns, diagonals and returns the winner
    and the line of the first triple whose three cells hold the same mark;
    it returns [null] exactly when no triple wins, on a full grid too.  It
    is the component's three-way reading ([outcome]: a winner, else a draw
    when every cell is occupied, else nothing) that is the outcome the
    specification words, and it is the only such outcome. *)
Theorem calculateWinner_first_triple (squares : Board) :
  length squares = 9 ->
  lines = map row [0; 1; 2] ++ map column [0; 1; 2] ++ [(0, 4, 8); (2, 4, 6)] /\
  (forall r, calculateWinner squares = Some r ->
     evaluate_spec squares (Win (winner r) (line r))) /\
  (calculateWinner squares = None <-> Forall (no_win squares) triples_in_order) /\
  (forall o, evaluate_spec squares o <-> outcome squares = o).
Proof.
  intros Hlen. split; [reflexivity|]. split; [|split].
  - intros r Hr. apply scanLines_Some in Hr. exact Hr.
  - split; [apply scanLines_None|].
    intros Hall. destruct (calculateWinner squares) as [r|] eqn:Hr; [|reflexivity].
    apply scanLines_Some in Hr as (before & after & Heq & Hw & _).
    rewrite lines_in_order in Heq. rewrite Heq in Hall.
    destruct (win_in_order_not_all_lose _ _ _ _ _ Hw Hall).
  - intros o. split.
    + intros Ho. eapply evaluate_spec_unique; [|exact Ho].
      apply outcome_evaluate_spec, Hlen.
    + intros <-. apply outcome_evaluate_spec, Hlen.
Qed.

Lemma calculateWinner_first_triple_witness :
  length drawnBoard = 9 /\
  (calculateWinner drawnBoard = None <-> Forall (no_win drawnBoard) triples_in_order).
Proof.
  split; [reflexivity|].
  exact (proj1 (proj2 (proj2 (calculateWinner_first_triple drawnBoard eq_refl)))).
Defined.

(** *** Empty cells and the random move *)

Lemma elem_of_emptyCells (squares : Board) (i : nat) :
  i ∈ emptyCells squares <-> squares !! i = Some None.
Proof.
  unfold emptyCells. rewrite list_elem_of_omap. split.
  - intros (o & Hin & Ho). apply elem_of_lookup_imap in Hin as (j & c & -> & Hj).
    destruct c as [m|]; simpl in Ho; [discriminate|]. injection Ho as <-. exact Hj.
  - intros Hi. exists (Some i). split; [|reflexivity].
    apply elem_of_lookup_imap. exists i, None. auto.
Qed.

Lemma emptyCells_nonempty (squares : Board) (i : nat) :
  squares !! i = Some None -> 0 < length (emptyCells squares).
Proof.
  intros Hi. apply elem_of_emptyCells in Hi.
  destruct (emptyCells squares); [inversion Hi|simpl; lia].
Qed.

Lemma some_null_true (squares : Board) :
  some_null squares = true <-> exists i, squares !! i = Some None.
Proof.
  unfold some_null. rewrite existsb_exists. split.
  - intros (c & Hin & Hc). apply strict_eq_true in Hc. injection Hc as ->.
    apply list_elem_of_In, list_elem_of_lookup in Hin. exact Hin.
  - intros [i Hi]. exists None. split; [|reflexivity].
    apply list_elem_of_In, list_elem_of_lookup. eauto.
Qed.

(** ** Results about the search *)

(** *** The order on scores *)

Lemma num_lt_irrefl (a : Number) : num_lt a a = false.
Proof. destruct a; simpl; auto. apply Z.ltb_irrefl. Qed.

Lemma num_lt_asym (a b : Number) : num_lt a b = true -> num_lt b a = false.
Proof.
  destruct a, b; simpl; try congruence.
  rewrite Z.ltb_lt, Z.ltb_ge. lia.
Qed.

(** [a <= b] and [b <= c] give [a <= c]. *)
Lemma num_le_trans (a b c : Number) :
  num_lt b a = false -> num_lt c b = false -> num_lt c a = false.
Proof.
  destruct a, b, c; simpl; try congruence.
  rewrite !Z.ltb_ge. lia.
Qed.

(** [a < b] and [b <= c] give [a < c]. *)
Lemma num_lt_le_trans (a b c : Number) :
  num_lt a b = true -> num_lt c b = false -> num_lt a c = true.
Proof.
  destruct a, b, c; simpl; try congruence.
  rewrite Z.ltb_ge, !Z.ltb_lt. lia.
Qed.

(** [a <= b] and [b < c] give [a < c]. *)
Lemma num_le_lt_trans (a b c : Number) :
  num_lt b a = false -> num_lt b c = true -> num_lt a c = true.
Proof.
  destruct a, b, c; simpl; try congruence.
  rewrite Z.ltb_ge, !Z.ltb_lt. lia.
Qed.

Lemma at_least_refl (isMax : bool) (a : Number) : at_least isMax a a.
Proof. destruct isMax; apply num_lt_irrefl. Qed.

Lemma at_least_trans (isMax : bool) (a b c : Number) :
  at_least isMax a b -> at_least isMax b c -> at_least isMax a c.
Proof.
  destruct isMax; simpl; intros Hab Hbc.
  - eapply num_le_trans; eauto.
  - eapply num_le_trans; eauto.
Qed.

Lemma better_at_least (isMax : bool) (a b : Number) :
  better isMax a b -> at_least isMax a b.
Proof. destruct isMax; apply num_lt_asym. Qed.

(** [a] better than [b], [b] at least as good as [c]: [a] better than [c]. *)
Lemma better_at_least_trans (isMax : bool) (a b c : Number) :
  better isMax a b -> at_least isMax b c -> better isMax a c.
Proof.
  destruct isMax; simpl; intros Hab Hbc.
  - eapply num_le_lt_trans; eauto.
  - eapply num_lt_le_trans; eauto.
Qed.

Lemma improve_cases (isMax : bool) (best : Best) (s : Number) (i : nat) :
  (improve isMax best s i = best /\ at_least isMax (score best) s) \/
  (improve isMax best s i = {| score := s; move := Some i |} /\
   better isMax s (score best)).
Proof.
  unfold improve, at_least, better. destruct isMax.
  - destruct (num_lt (score best) s); auto.
  - destruct (num_lt s (score best)); auto.
Qed.

(** *** The loop over the cells *)

Lemma falsy_write_back (board : Board) (i : nat) (v : Cell) :
  truthy (board !! i) = false -> <[i := None]> (<[i := v]> board) = board.
Proof.
  intros Hi. rewrite list_insert_insert_eq. apply list_insert_id'.
  intros Hlt. destruct (lookup_lt_is_Some_2 _ _ Hlt) as [c Hc].
  rewrite Hc in *. destruct c; simpl in Hi; congruence.
Qed.

Lemma falsy_free (board : Board) (i : nat) :
  i < length board -> truthy (board !! i) = false -> board !! i = Some None.
Proof.
  intros Hlt Hi. destruct (lookup_lt_is_Some_2 _ _ Hlt) as [c Hc].
  rewrite Hc in *. destruct c; simpl in Hi; congruence.
Qed.

Section loop_facts.

Variable rec : Board -> bool -> option (Best * Board).
Variables botMark humanMark : Mark.
Variable isMax : bool.

(** The recursive call gives the array back as it got it. *)
Hypothesis rec_restores :
  forall board t r board', rec board t = Some (r, board') -> board' = board.


Lemma visit_cases (i : nat) (best : Best) (board : Board) (st' : Best * Board) :
  visit rec botMark humanMark isMax i (best, board) = Some st' ->
  (truthy (board !! i) = true /\ st' = (best, board)) \/
  (truthy (board !! i) = false /\
   exists r b, child rec botMark humanMark isMax board i = Some (r, b) /\
               st' = (improve isMax best (score r) i, board)).
Proof.
  unfold visit, child. destruct (truthy (board !! i)) eqn:Hi; simpl.
  - intros [= <-]. auto.
  - destruct (rec _ _) as [[r board2]|] eqn:Hrec; [|discriminate].
    intros [= <-]. right. split; [reflexivity|]. exists r, board2.
    split; [reflexivity|].
    rewrite (rec_restores _ _ _ _ Hrec), falsy_write_back by exact Hi.
    reflexivity.
Qed.

(** The loop leaves the array as it found it. *)
Lemma loop_restores (idxs : list nat) (best : Best) (board : Board)
    (st' : Best * Board) :
  loop rec botMark humanMark isMax idxs (best, board) = Some st' ->
  st'.2 = board.
Proof.
  revert best. induction idxs as [|i rest IH]; cbn [loop]; intros best.
  - intros [= <-]. reflexivity.
  - destruct (visit rec botMark humanMark isMax i (best, board)) as [st1|] eqn:Hv;
      [|discriminate].
    apply visit_cases in Hv as [[_ ->] | [_ (r & b & _ & ->)]]; apply IH.
Qed.

(** The loop returns when the recursive calls on the free cells do. *)
Lemma loop_total (idxs : list nat) (best : Best) (board : Board) :
  (forall i, i ∈ idxs -> truthy (board !! i) = false -> is_Some (child rec botMark humanMark isMax board i)) ->
  exists best', loop rec botMark humanMark isMax idxs (best, board) = Some (best', board).
Proof.
  revert best. induction idxs as [|i rest IH]; cbn [loop]; intros best Hrec.
  - eauto.
  - assert (Hrest : forall j, j ∈ rest -> truthy (board !! j) = false ->
                               is_Some (child rec botMark humanMark isMax board j)).
    { intros j Hj. apply Hrec. right. exact Hj. }
    unfold visit. destruct (truthy (board !! i)) eqn:Hi; simpl.
    + apply IH, Hrest.
    + destruct (Hrec i) as [[r b] Hr]; [left|exact Hi|].
      unfold child in Hr. rewrite Hr.
      rewrite (rec_restores _ _ _ _ Hr), falsy_write_back by exact Hi.
      apply IH, Hrest.
Qed.

(** The running best never gets worse, and in the end it is at least as
    good as the score of every free cell visited. *)
Lemma loop_bound (idxs : list nat) (best best' : Best) (board board' : Board) :
  loop rec botMark humanMark isMax idxs (best, board) = Some (best', board') ->
  at_least isMax (score best') (score best) /\
  forall i, i ∈ idxs -> truthy (board !! i) = false ->
    exists r b, child rec botMark humanMark isMax board i = Some (r, b) /\
                at_least isMax (score best') (score r).
Proof.
  revert best. induction idxs as [|i rest IH]; cbn [loop]; intros best.
  - intros [= <- <-]. split; [apply at_least_refl|].
    intros i Hi. inversion Hi.
  - destruct (visit rec botMark humanMark isMax i (best, board)) as [st1|] eqn:Hv;
      [|discriminate].
    apply visit_cases in Hv as [[Hocc ->] | [Hfree (r & b & Hr & ->)]]; intros Hloop.
    + destruct (IH _ Hloop) as [Hmono Hall]. split; [exact Hmono|].
      intros j Hj Hjfree. apply elem_of_cons in Hj as [-> | Hj]; [congruence|].
      apply Hall; assumption.
    + destruct (IH _ Hloop) as [Hmono Hall].
      assert (Hstep : at_least isMax (score (improve isMax best (score r) i)) (score best)
                      /\ at_least isMax (score (improve isMax best (score r) i)) (score r)).
      { destruct (improve_cases isMax best (score r) i) as [[-> H] | [-> H]]; simpl.
        - split; [apply at_least_refl|exact H].
        - split; [apply better_at_least, H|apply at_least_refl]. }
      destruct Hstep as [Hbest Hr'].
      split; [eapply at_least_trans; eauto|].
      intros j Hj Hjfree. apply elem_of_cons in Hj as [-> | Hj].
      * exists r, b. split; [exact Hr|]. eapply at_least_trans; eauto.
      * apply Hall; assumption.
Qed.

(** The final best is the initial one, or the score of the first free cell
    that is strictly better than the initial best and than every free cell
    before it. *)
Lemma loop_first (idxs : list nat) (best best' : Best) (board board' : Board) :
  loop rec botMark humanMark isMax idxs (best, board) = Some (best', board') ->
  best' = best \/
  exists before i after r b,
    idxs = before ++ i :: after /\
    truthy (board !! i) = false /\
    child rec botMark humanMark isMax board i = Some (r, b) /\
    best' = {| score := score r; move := Some i |} /\
    better isMax (score r) (score best) /\
    forall j, j ∈ before -> truthy (board !! j) = false ->
      exists rj bj, child rec botMark humanMark isMax board j = Some (rj, bj) /\
                    better isMax (score r) (score rj).
Proof.
  revert best. induction idxs as [|i rest IH]; cbn [loop]; intros best.
  - intros [= <- <-]. auto.
  - destruct (visit rec botMark humanMark isMax i (best, board)) as [st1|] eqn:Hv;
      [|discriminate].
    apply visit_cases in Hv as [[Hocc ->] | [Hfree (r & b & Hr & ->)]]; intros Hloop.
    + destruct (IH _ Hloop)
        as [-> | (before & k & after & rk & bk & -> & Hk & Hrk & -> & Hbet & Hbefore)];
        [auto|].
      right. exists (i :: before), k, after, rk, bk. repeat split; auto.
      intros j Hj Hjfree. apply elem_of_cons in Hj as [-> | Hj]; [congruence|].
      apply Hbefore; assumption.
    + destruct (IH _ Hloop)
        as [-> | (before & k & after & rk & bk & -> & Hk & Hrk & -> & Hbet & Hbefore)].
      * destruct (improve_cases isMax best (score r) i) as [[-> H] | [-> H]]; [auto|].
        right. exists [], i, rest, r, b. repeat split; auto.
        intros j Hj. inversion Hj.
      * right. exists (i :: before), k, after, rk, bk.
        destruct (improve_cases isMax best (score r) i) as [[Himp H] | [Himp H]];
          rewrite Himp in Hbet; simpl in Hbet.
        -- repeat split; auto.
           intros j Hj Hjfree. apply elem_of_cons in Hj as [-> | Hj].
           ++ exists r, b. split; [exact Hr|].
              eapply better_at_least_trans; eauto.
           ++ apply Hbefore; assumption.
        -- repeat split; auto.
           ++ eapply better_at_least_trans; [exact Hbet|].
              apply better_at_least, H.
           ++ intros j Hj Hjfree. apply elem_of_cons in Hj as [-> | Hj].
              ** exists r, b. split; [exact Hr|exact Hbet].
              ** apply Hbefore; assumption.
Qed.

End loop_facts.

(** *** The recursion *)

Lemma some_null_not_every (board : Board) :
  some_null board = true -> every_Boolean board = false.
Proof.
  intros Hnull. apply some_null_true in Hnull as [i Hi].
  destruct (every_Boolean board) eqn:Hfull; [|reflexivity].
  destruct (proj1 (every_Boolean_true board) Hfull i) as [m Hm].
  - eapply lookup_lt_Some, Hi.
  - congruence.
Qed.

Lemma inPlay_true (board : Board) :
  inPlay board = true <-> calculateWinner board = None /\ some_null board = true.
Proof.
  unfold inPlay. rewrite andb_true_iff, negb_true_iff, bool_decide_eq_false.
  split; intros [Hw Hnull]; (split; [|exact Hnull]).
  - destruct (calculateWinner board); [destruct Hw; eauto|reflexivity].
  - rewrite Hw. intros [r Hr]. discriminate.
Qed.

(** While the game is on, a call of [minimax] is its loop. *)
Lemma minimax_inPlay (fuel : nat) (botMark humanMark : Mark) (board : Board)
    (isMax : bool) :
  inPlay board = true ->
  minimax (S fuel) botMark humanMark board isMax =
  loop (minimax fuel botMark humanMark) botMark humanMark isMax (seq 0 9)
    ({| score := if isMax then NegInfinity else Infinity; move := None |}, board).
Proof.
  intros Hplay. apply inPlay_true in Hplay as [Hw Hnull].
  cbn [minimax]. rewrite Hw. cbn [winner_is].
  rewrite (some_null_not_every board Hnull). reflexivity.
Qed.

(** The search leaves the array as it found it. *)
Lemma minimax_restores (fuel : nat) (botMark humanMark : Mark) :
  forall board isMax r board',
    minimax fuel botMark humanMark board isMax = Some (r, board') -> board' = board.
Proof.
  induction fuel as [|fuel IH]; intros board isMax r board'; cbn [minimax];
    [discriminate|].
  destruct (winner_is (calculateWinner board) botMark); [intros [= _ <-]; reflexivity|].
  destruct (winner_is (calculateWinner board) humanMark); [intros [= _ <-]; reflexivity|].
  destruct (every_Boolean board); [intros [= _ <-]; reflexivity|].
  intros Hloop.
  exact (loop_restores _ botMark humanMark isMax IH _ _ _ _ Hloop).
Qed.

Lemma visit_mono (rec rec' : Board -> bool -> option (Best * Board))
    (botMark humanMark : Mark) (isMax : bool) (i : nat) (st st' : Best * Board) :
  (forall board t x, rec board t = Some x -> rec' board t = Some x) ->
  visit rec botMark humanMark isMax i st = Some st' ->
  visit rec' botMark humanMark isMax i st = Some st'.
Proof.
  intros Hsub. unfold visit. destruct st as [best board].
  destruct (negb (truthy (board !! i))); [|auto].
  destruct (rec _ _) as [[r b]|] eqn:Hrec; [|discriminate].
  rewrite (Hsub _ _ _ Hrec). auto.
Qed.

Lemma loop_mono (rec rec' : Board -> bool -> option (Best * Board))
    (botMark humanMark : Mark) (isMax : bool) (idxs : list nat)
    (st st' : Best * Board) :
  (forall board t x, rec board t = Some x -> rec' board t = Some x) ->
  loop rec botMark humanMark isMax idxs st = Some st' ->
  loop rec' botMark humanMark isMax idxs st = Some st'.
Proof.
  intros Hsub. revert st. induction idxs as [|i rest IH]; cbn [loop]; intros st; [auto|].
  destruct (visit rec botMark humanMark isMax i st) as [st1|] eqn:Hv; [|discriminate].
  rewrite (visit_mono _ _ _ _ _ _ _ _ Hsub Hv). apply IH.
Qed.

(** More fuel does not change a result. *)
Lemma minimax_mono (botMark humanMark : Mark) (fuel fuel' : nat) :
  fuel <= fuel' ->
  forall board isMax x,
    minimax fuel botMark humanMark board isMax = Some x ->
    minimax fuel' botMark humanMark board isMax = Some x.
Proof.
  revert fuel'. induction fuel as [|fuel IH]; intros fuel' Hle board isMax x;
    cbn [minimax]; [discriminate|].
  destruct fuel' as [|fuel']; [lia|]. cbn [minimax].
  destruct (winner_is (calculateWinner board) botMark); [auto|].
  destruct (winner_is (calculateWinner board) humanMark); [auto|].
  destruct (every_Boolean board); [auto|].
  apply loop_mono. apply IH. lia.
Qed.

Lemma minimax_agree (botMark humanMark : Mark) (fuel fuel' : nat)
    (board : Board) (isMax : bool) (x x' : Best * Board) :
  minimax fuel botMark humanMark board isMax = Some x ->
  minimax fuel' botMark humanMark board isMax = Some x' ->
  x = x'.
Proof.
  intros H H'.
  apply (minimax_mono _ _ _ (fuel `max` fuel')) in H; [|lia].
  apply (minimax_mono _ _ _ (fuel `max` fuel')) in H'; [|lia].
  congruence.
Qed.

Lemma countNull_le_length (board : Board) : countNull board <= length board.
Proof.
  induction board as [|[m|] rest IH]; simpl; lia.
Qed.

Lemma countNull_fill (board : Board) (i : nat) (m : Mark) :
  board !! i = Some None ->
  S (countNull (<[i := Some m]> board)) = countNull board.
Proof.
  revert i. induction board as [|c rest IH]; intros [|i]; simpl; try discriminate.
  - intros [= ->]. reflexivity.
  - intros Hi. destruct c; [apply IH, Hi|]. f_equal. apply IH, Hi.
Qed.

(** The search returns: on a nine-cell board, fuel beyond the number of
    free cells is enough. *)
Lemma minimax_total (botMark humanMark : Mark) (fuel : nat) :
  forall board isMax,
    length board = 9 -> countNull board < fuel ->
    exists best, minimax fuel botMark humanMark board isMax = Some (best, board).
Proof.
  induction fuel as [|fuel IH]; intros board isMax Hlen Hfuel; [lia|].
  cbn [minimax].
  destruct (winner_is (calculateWinner board) botMark); [eauto|].
  destruct (winner_is (calculateWinner board) humanMark); [eauto|].
  destruct (every_Boolean board); [eauto|].
  apply loop_total; [apply minimax_restores|].
  intros i Hi Hfree. apply elem_of_seq in Hi.
  assert (Hnull : board !! i = Some None) by (apply falsy_free; [lia|exact Hfree]).
  destruct (IH (<[i := Some (if isMax then botMark else humanMark)]> board) (negb isMax))
    as [best Hbest].
  - rewrite length_insert. exact Hlen.
  - pose proof (countNull_fill board i (if isMax then botMark else humanMark) Hnull). lia.
  - unfold child. rewrite Hbest. eauto.
Qed.

Lemma searchFuel_enough (botMark humanMark : Mark) (board : Board) (isMax : bool) :
  length board = 9 ->
  exists best, minimax searchFuel botMark humanMark board isMax = Some (best, board).
Proof.
  intros Hlen. apply minimax_total; [exact Hlen|].
  pose proof (countNull_le_length board). unfold searchFuel. lia.
Qed.

(** On a nine-cell board every score is one of -1, 0 and 1. *)
Lemma minimax_score_fin (botMark humanMark : Mark) (fuel : nat) :
  forall board isMax best board',
    length board = 9 ->
    minimax fuel botMark humanMark board isMax = Some (best, board') ->
    exists z, score best = Fin z /\ (-1 <= z <= 1)%Z.
Proof.
  induction fuel as [|fuel IH]; intros board isMax best board' Hlen; cbn [minimax];
    [discriminate|].
  destruct (winner_is (calculateWinner board) botMark);
    [intros [= <- _]; exists 1%Z; simpl; split; [reflexivity|lia]|].
  destruct (winner_is (calculateWinner board) humanMark);
    [intros [= <- _]; exists (-1)%Z; simpl; split; [reflexivity|lia]|].
  destruct (every_Boolean board) eqn:Hfull;
    [intros [= <- _]; exists 0%Z; simpl; split; [reflexivity|lia]|].
  intros Hloop.
  assert (Hchild : forall i r b,
    minimax fuel botMark humanMark
      (<[i := Some (if isMax then botMark else humanMark)]> board) (negb isMax)
      = Some (r, b) -> exists z, score r = Fin z /\ (-1 <= z <= 1)%Z).
  { intros i r b Hr. eapply IH; [|exact Hr]. rewrite length_insert. exact Hlen. }
  destruct (loop_first _ botMark humanMark isMax (minimax_restores fuel botMark humanMark)
              _ _ _ _ _ Hloop)
    as [-> | (before & k & after & rk & bk & _ & _ & Hrk & -> & _)].
  - apply every_Boolean_false in Hfull as (i & Hi & Hnull).
    destruct (loop_bound _ botMark humanMark isMax (minimax_restores fuel botMark humanMark)
                _ _ _ _ _ Hloop) as [_ Hall].
    destruct (Hall i) as (r & b & Hr & Hle).
    + apply elem_of_seq. lia.
    + rewrite Hnull. reflexivity.
    + destruct (Hchild i r b Hr) as (z & Hz & _).
      rewrite Hz in Hle. destruct isMax; simpl in Hle; discriminate.
  - simpl. eapply Hchild, Hrk.
Qed.

Lemma seq_split_before (n : nat) (before after : list nat) (m : nat) :
  seq 0 n = before ++ m :: after ->
  m < n /\ forall j, j < m -> j ∈ before.
Proof.
  intros Heq.
  assert (Hm : seq 0 n !! length before = Some m).
  { rewrite Heq, lookup_app_r, Nat.sub_diag by lia. reflexivity. }
  apply lookup_seq in Hm as [Hm Hlt]. simpl in Hm. split; [lia|].
  intros j Hj.
  assert (Hjl : seq 0 n !! j = Some j) by (apply lookup_seq; simpl; lia).
  rewrite Heq, lookup_app_l in Hjl by lia.
  eapply list_elem_of_lookup_2, Hjl.
Qed.

(** What the root call picks while the game is on: a free cell with the
    score of the root, whose score no free cell beats and which beats
    every free cell before it. *)
Lemma minimax_root_choice (botMark humanMark : Mark) (fuel : nat) (board : Board)
    (best : Best) (board' : Board) :
  length board = 9 ->
  inPlay board = true ->
  minimax (S fuel) botMark humanMark board true = Some (best, board') ->
  exists m r b,
    move best = Some m /\ m < 9 /\ board !! m = Some None /\
    minimax fuel botMark humanMark (<[m := Some botMark]> board) false = Some (r, b) /\
    score best = score r /\
    forall j, j < 9 -> board !! j = Some None ->
      exists rj bj,
        minimax fuel botMark humanMark (<[j := Some botMark]> board) false = Some (rj, bj) /\
        num_lt (score r) (score rj) = false /\
        (j < m -> num_lt (score rj) (score r) = true).
Proof.
  intros Hlen Hplay Hmin.
  pose proof (minimax_score_fin _ _ _ _ _ _ _ Hlen Hmin) as (z & Hz & _).
  rewrite (minimax_inPlay _ _ _ _ _ Hplay) in Hmin.
  pose proof (minimax_restores fuel botMark humanMark) as Hres.
  destruct (loop_first _ botMark humanMark true Hres _ _ _ _ _ Hmin)
    as [-> | (before & m & after & r & b & Hsplit & Hm & Hr & -> & _ & Hbefore)];
    [simpl in Hz; discriminate|].
  destruct (loop_bound _ botMark humanMark true Hres _ _ _ _ _ Hmin) as [_ Hall].
  destruct (seq_split_before _ _ _ _ Hsplit) as [Hm9 Hlt].
  exists m, r, b. simpl. repeat split; auto.
  - apply falsy_free; [lia|exact Hm].
  - intros j Hj Hnull.
    assert (Hfree : truthy (board !! j) = false) by (rewrite Hnull; reflexivity).
    destruct (Hall j) as (rj & bj & Hrj & Hle); [apply elem_of_seq; lia|exact Hfree|].
    exists rj, bj. repeat split; auto.
    intros Hjm. destruct (Hbefore j (Hlt j Hjm) Hfree) as (rj' & bj' & Hrj' & Hbet).
    simpl in Hrj, Hrj'. rewrite Hrj in Hrj'. injection Hrj' as <- <-. exact Hbet.
Qed.

(** While the game is on, the human's reply on any free cell is scored no
    lower than the position it is made in. *)
Lemma minimax_reply_bound (botMark humanMark : Mark) (fuel : nat) (board : Board)
    (best : Best) (board' : Board) (c : nat) :
  length board = 9 ->
  inPlay board = true ->
  minimax (S fuel) botMark humanMark board false = Some (best, board') ->
  board !! c = Some None ->
  exists r b,
    minimax fuel botMark humanMark (<[c := Some humanMark]> board) true = Some (r, b) /\
    num_lt (score r) (score best) = false.
Proof.
  intros Hlen Hplay Hmin Hc.
  rewrite (minimax_inPlay _ _ _ _ _ Hplay) in Hmin.
  destruct (loop_bound _ botMark humanMark false (minimax_restores fuel botMark humanMark)
              _ _ _ _ _ Hmin) as [_ Hall].
  destruct (Hall c) as (r & b & Hr & Hle).
  - apply elem_of_seq. apply lookup_lt_Some in Hc. lia.
  - rewrite Hc. reflexivity.
  - exists r, b. split; [exact Hr|exact Hle].
Qed.

(** *** The bot's move *)

(** While the game is on, [getBestMove] returns a cell, whatever would be
    drawn for the random fallback, and the cell is free. *)
Lemma getBestMove_returns (botMark humanMark : Mark) (board : Board) :
  length board = 9 ->
  inPlay board = true ->
  exists m, board !! m = Some None /\ m < 9 /\
            forall r, getBestMove board botMark humanMark r = Some m.
Proof.
  intros Hlen Hplay.
  destruct (searchFuel_enough botMark humanMark board true Hlen) as [best Hbest].
  destruct (minimax_root_choice _ _ _ _ _ _ Hlen Hplay Hbest)
    as (m & r0 & b & Hmove & Hm & Hnull & _).
  exists m. repeat split; auto.
  intros r. unfold getBestMove. rewrite Hbest, Hmove. reflexivity.
Qed.

(** The root's pick is the first free cell of maximal subtree score. *)
Lemma getBestMove_first_maximal (botMark humanMark : Mark) (board : Board) (r m : nat) :
  length board = 9 ->
  inPlay board = true ->
  getBestMove board botMark humanMark r = Some m ->
  board !! m = Some None /\
  exists sm, subtreeScore botMark humanMark board m = Some sm /\
    forall j, j < 9 -> board !! j = Some None ->
      exists sj, subtreeScore botMark humanMark board j = Some sj /\
                 num_lt sm sj = false /\
                 (j < m -> num_lt sj sm = true).
Proof.
  intros Hlen Hplay Hget.
  destruct (searchFuel_enough botMark humanMark board true Hlen) as [best Hbest].
  destruct (minimax_root_choice _ _ _ _ _ _ Hlen Hplay Hbest)
    as (m' & r0 & b & Hmove & Hm & Hnull & Hr0 & _ & Hall).
  unfold getBestMove in Hget. rewrite Hbest, Hmove in Hget. injection Hget as <-.
  split; [exact Hnull|]. exists (score r0). split.
  - unfold subtreeScore.
    rewrite (minimax_mono _ _ 9 searchFuel (Nat.le_succ_diag_r 9) _ _ _ Hr0). reflexivity.
  - intros j Hj Hjnull. destruct (Hall j Hj Hjnull) as (rj & bj & Hrj & Hle & Hlt).
    exists (score rj). split; [|auto].
    unfold subtreeScore.
    rewrite (minimax_mono _ _ 9 searchFuel (Nat.le_succ_diag_r 9) _ _ _ Hrj). reflexivity.
Qed.

(** *** Play against the bot never meets a human win *)

Lemma not_lost_safe (botMark humanMark : Mark) (board : Board) :
  not_lost botMark humanMark board -> safe botMark humanMark true board.
Proof.
  intros (best & b & Hmin & Hscore). exists searchFuel, best, b. auto.
Qed.

Lemma safe_not_lost (botMark humanMark : Mark) (board : Board) :
  length board = 9 ->
  safe botMark humanMark true board -> not_lost botMark humanMark board.
Proof.
  intros Hlen (fuel & best & b & Hmin & Hscore).
  destruct (searchFuel_enough botMark humanMark board true Hlen) as [best' Hbest'].
  pose proof (minimax_agree _ _ _ _ _ _ _ _ Hmin Hbest') as [= -> ->].
  exists best', board. auto.
Qed.

Lemma not_lostb_true (botMark humanMark : Mark) (board : Board) :
  not_lostb botMark humanMark board = true -> not_lost botMark humanMark board.
Proof.
  unfold not_lostb, not_lost.
  destruct (minimax searchFuel botMark humanMark board true) as [[best b]|];
    [|discriminate].
  intros H. apply negb_true_iff in H. eauto.
Qed.

(** A position the search scores at 0 or more is not won by the human. *)
Lemma safe_not_won (botMark humanMark : Mark) (botToMove : bool) (board : Board) :
  botMark <> humanMark ->
  safe botMark humanMark botToMove board ->
  ~ wonBy humanMark board.
Proof.
  intros Hne (fuel & best & b & Hmin & Hscore) (r & Hr & Hwin).
  destruct fuel as [|fuel]; [discriminate|]. cbn [minimax] in Hmin.
  rewrite Hr in Hmin. cbn [winner_is] in Hmin. rewrite Hwin in Hmin.
  rewrite (bool_decide_eq_false_2 (humanMark = botMark)) in Hmin by congruence.
  rewrite (bool_decide_eq_true_2 (humanMark = humanMark)) in Hmin by reflexivity.
  injection Hmin as <- _. discriminate.
Qed.

(** The bot's move keeps the score. *)
Lemma safe_bot_move (botMark humanMark : Mark) (board : Board) (r m : nat) :
  length board = 9 ->
  inPlay board = true ->
  safe botMark humanMark true board ->
  getBestMove board botMark humanMark r = Some m ->
  safe botMark humanMark false (<[m := Some botMark]> board).
Proof.
  intros Hlen Hplay Hsafe Hget.
  apply (safe_not_lost _ _ _ Hlen) in Hsafe as (best & b & Hbest & Hscore).
  destruct (minimax_root_choice _ _ _ _ _ _ Hlen Hplay Hbest)
    as (m' & r0 & b0 & Hmove & _ & _ & Hr0 & Heq & _).
  unfold getBestMove in Hget. rewrite Hbest, Hmove in Hget. injection Hget as <-.
  exists 9, r0, b0. split; [exact Hr0|]. rewrite <- Heq. exact Hscore.
Qed.

(** No reply of the human lowers the score. *)
Lemma safe_human_move (botMark humanMark : Mark) (board : Board) (c : nat) :
  length board = 9 ->
  inPlay board = true ->
  safe botMark humanMark false board ->
  board !! c = Some None ->
  safe botMark humanMark true (<[c := Some humanMark]> board).
Proof.
  intros Hlen Hplay (fuel & best & b & Hmin & Hscore) Hc.
  destruct fuel as [|fuel]; [discriminate|].
  destruct (minimax_reply_bound _ _ _ _ _ _ c Hlen Hplay Hmin Hc) as (r & b' & Hr & Hle).
  exists fuel, r, b'. split; [exact Hr|].
  eapply num_le_trans; [exact Hscore|exact Hle].
Qed.

(** The invariant of play: nine cells, and a score of 0 or more. *)
Lemma play_step_safe (botMark humanMark : Mark) (p q : Board * bool) :
  play_step botMark humanMark p q ->
  length p.1 = 9 -> safe botMark humanMark p.2 p.1 ->
  length q.1 = 9 /\ safe botMark humanMark q.2 q.1.
Proof.
  intros Hstep. destruct Hstep as [board r m Hplay Hget | board c Hplay Hc];
    simpl; intros Hlen Hsafe; (split; [rewrite length_insert; exact Hlen|]).
  - eapply safe_bot_move; eauto.
  - eapply safe_human_move; eauto.
Qed.

Lemma play_safe (botMark humanMark : Mark) (p q : Board * bool) :
  rtc (play_step botMark humanMark) p q ->
  length p.1 = 9 -> safe botMark humanMark p.2 p.1 ->
  length q.1 = 9 /\ safe botMark humanMark q.2 q.1.
Proof.
  induction 1 as [p | p p' q Hstep _ IH]; [auto|].
  intros Hlen Hsafe.
  destruct (play_step_safe _ _ _ _ Hstep Hlen Hsafe) as [Hlen' Hsafe'].
  apply IH; assumption.
Qed.

(** The start positions: the empty board with the bot to move, either way
    round, and the empty board with the human to move. *)
Lemma start_scores :
  not_lostb O X emptyBoard = true /\
  not_lostb X O emptyBoard = true /\
  forallb (fun c => not_lostb O X (<[c := Some X]> emptyBoard)) (seq 0 9) = true /\
  forallb (fun c => not_lostb X O (<[c := Some O]> emptyBoard)) (seq 0 9) = true.
Proof. vm_compute. auto. Qed.

Lemma start_not_lost (botMark humanMark : Mark) :
  botMark <> humanMark ->
  not_lost botMark humanMark emptyBoard /\
  forall c, c < 9 -> not_lost botMark humanMark (<[c := Some humanMark]> emptyBoard).
Proof.
  intros Hne. destruct start_scores as (HOX & HXO & HOX1 & HXO1).
  rewrite forallb_forall in HOX1, HXO1.
  destruct botMark, humanMark; try congruence.
  - split; [apply not_lostb_true, HXO|].
    intros c Hc. apply not_lostb_true, HXO1, in_seq. lia.
  - split; [apply not_lostb_true, HOX|].
    intros c Hc. apply not_lostb_true, HOX1, in_seq. lia.
Qed.

Lemma legal_lostBoard : legal lostBoard O.
Proof.
  pose proof (legal_move _ _ 0 legal_start eq_refl eq_refl) as H1.
  pose proof (legal_move _ _ 1 H1 eq_refl eq_refl) as H2.
  pose proof (legal_move _ _ 4 H2 eq_refl eq_refl) as H3.
  pose proof (legal_move _ _ 8 H3 eq_refl eq_refl) as H4.
  exact (legal_move _ _ 3 H4 eq_refl eq_refl).
Qed.

(** C1, as stated, fails on the code: [lostBoard] is reached by legal
    alternating play with O, the bot, to move; it answers with cell 2, the
    human takes cell 5 and has won the middle row. *)
Lemma getBestMove_lost_position_counterexample :
  legal lostBoard O /\
  exists final,
    rtc (play_step O X) (lostBoard, true) (final, true) /\
    wonBy X final.
Proof.
  split; [exact legal_lostBoard|].
  exists [ Some X; Some O; Some O; Some X; Some X; Some X; None; None; Some O ].
  split.
  - eapply rtc_l; [|eapply rtc_l; [|apply rtc_refl]].
    + apply (bot_moves O X lostBoard 0 2); vm_compute; reflexivity.
    + apply (human_moves O X
               [ Some X; Some O; Some O; Some X; Some X; None; None; None; Some O ] 5);
        reflexivity.
  - eexists. split; reflexivity.
Qed.

(** C1, amended: [getBestMove] never loses from a position that is not
    already lost.  For two different marks: the empty grid, and the grid
    after any first move of the human, are scored 0 or more by the search.
    From every nine-cell grid so scored, with the bot to move, play in which
    the bot moves by [getBestMove] and the human on any free cell only
    visits grids that the human has not won and that are scored 0 or more
    again when it is the bot's turn; whenever the game is still on there,
    [getBestMove] returns a free cell, whatever the random draw, and that
    cell is the first free cell, in ascending order, of maximal subtree
    score. *)
Theorem getBestMove_never_loses (botMark humanMark : Mark) :
  botMark <> humanMark ->
  not_lost botMark humanMark emptyBoard /\
  (forall c, c < 9 -> not_lost botMark humanMark (<[c := Some humanMark]> emptyBoard)) /\
  (forall squares final botToMove,
     length squares = 9 ->
     not_lost botMark humanMark squares ->
     rtc (play_step botMark humanMark) (squares, true) (final, botToMove) ->
     ~ wonBy humanMark final /\
     (botToMove = true -> not_lost botMark humanMark final) /\
     (botToMove = true -> inPlay final = true ->
        exists m, forall r,
          getBestMove final botMark humanMark r = Some m /\
          final !! m = Some None /\
          exists sm, subtreeScore botMark humanMark final m = Some sm /\
            forall j, j < 9 -> final !! j = Some None ->
              exists sj, subtreeScore botMark humanMark final j = Some sj /\
                         num_lt sm sj = false /\
                         (j < m -> num_lt sj sm = true))).
Proof.
  intros Hne. destruct (start_not_lost _ _ Hne) as [Hstart Hfirst].
  split; [exact Hstart|]. split; [exact Hfirst|].
  intros squares final botToMove Hlen Hnot Hplay.
  destruct (play_safe _ _ _ _ Hplay Hlen (not_lost_safe _ _ _ Hnot)) as [Hlen' Hsafe].
  simpl in Hlen', Hsafe. split; [eapply safe_not_won; eauto|]. split.
  - intros ->. apply safe_not_lost; assumption.
  - intros -> Hon.
    destruct (getBestMove_returns botMark humanMark final Hlen' Hon) as (m & Hm & _ & Hget).
    exists m. intros r. split; [apply Hget|].
    apply (getBestMove_first_maximal _ _ _ r); auto.
Qed.

Lemma getBestMove_never_loses_witness :
  O <> X /\
  length (<[4 := Some X]> emptyBoard) = 9 /\
  forall final botToMove,
    rtc (play_step O X) (<[4 := Some X]> emptyBoard, true) (final, botToMove) ->
    ~ wonBy X final.
Proof.
  split; [discriminate|]. split; [reflexivity|].
  intros final botToMove Hplay.
  destruct (getBestMove_never_loses O X) as (_ & Hfirst & Hall); [discriminate|].
  exact (proj1 (Hall (<[4 := Some X]> emptyBoard) final botToMove eq_refl
                  (Hfirst 4 ltac:(lia)) Hplay)).
Defined.

(** ** Further results about the bot logic *)

(** *** The list of free cells *)

Lemma emptyCells_shift (f : nat -> nat) (board : Board) :
  omap id (imap (fun i (v : Cell) => match v with None => Some (f i) | Some _ => None end) board)
  = f <$> emptyCells board.
Proof.
  unfold emptyCells. revert f.
  induction board as [|c rest IH]; intros f; [reflexivity|].
  rewrite !imap_cons.
  assert (Hrest :
    omap id (imap ((fun i (v : Cell) =>
                      match v with None => Some (f i) | Some _ => None end) ∘ S) rest)
    = f <$> omap id (imap ((fun i (v : Cell) =>
                      match v with None => Some i | Some _ => None end) ∘ S) rest)).
  { etrans; [exact (IH (fun i => f (S i)))|].
    etrans; [|apply (f_equal (fmap f)); symmetry; exact (IH S)].
    apply (list_fmap_compose S f). }
  destruct c as [m|]; simpl; [exact Hrest|].
  f_equal. exact Hrest.
Qed.

Lemma emptyCells_cons (c : Cell) (rest : Board) :
  emptyCells (c :: rest)
  = match c with None => [0] | Some _ => [] end ++ (S <$> emptyCells rest).
Proof.
  unfold emptyCells at 1. rewrite imap_cons.
  pose proof (emptyCells_shift S rest) as Hrest.
  destruct c as [m|]; simpl; [exact Hrest|].
  f_equal. exact Hrest.
Qed.

Lemma emptyCells_length (board : Board) :
  length (emptyCells board) = countNull board.
Proof.
  induction board as [|[m|] rest IH]; [reflexivity| |];
    rewrite emptyCells_cons; simpl; rewrite length_fmap, IH; reflexivity.
Qed.

Lemma emptyCells_increasing (board : Board) :
  forall r1 r2 i j,
    r1 < r2 ->
    emptyCells board !! r1 = Some i -> emptyCells board !! r2 = Some j -> i < j.
Proof.
  induction board as [|c rest IH]; intros r1 r2 i j Hlt; [discriminate|].
  rewrite emptyCells_cons.
  assert (Hshift : forall r1 r2 i j, r1 < r2 ->
            (S <$> emptyCells rest) !! r1 = Some i ->
            (S <$> emptyCells rest) !! r2 = Some j -> i < j).
  { intros q1 q2 a b Hq. rewrite !list_lookup_fmap.
    destruct (emptyCells rest !! q1) as [a'|] eqn:H1; [|discriminate].
    destruct (emptyCells rest !! q2) as [b'|] eqn:H2; [|discriminate].
    simpl. intros [= <-] [= <-]. pose proof (IH q1 q2 a' b' Hq H1 H2). lia. }
  destruct c as [m|]; simpl; [apply Hshift; exact Hlt|].
  destruct r1 as [|r1], r2 as [|r2]; simpl; try lia.
  - intros [= <-]. rewrite list_lookup_fmap.
    destruct (emptyCells rest !! r2); [|discriminate]. simpl. intros [= <-]. lia.
  - apply Hshift. lia.
Qed.

(** X5: the candidate list of the random strategy holds every free cell
    of the grid, each exactly once, in ascending order. *)
Theorem emptyCells_each_free_cell_once (board : Board) :
  (forall i, i ∈ emptyCells board <-> board !! i = Some None) /\
  length (emptyCells board) = countNull board /\
  (forall r1 r2 i j, r1 < r2 ->
     emptyCells board !! r1 = Some i -> emptyCells board !! r2 = Some j -> i < j).
Proof.
  split; [apply elem_of_emptyCells|]. split; [apply emptyCells_length|].
  apply emptyCells_increasing.
Qed.

(** *** What the search returns *)

Lemma not_some_null_every (board : Board) :
  some_null board = false -> every_Boolean board = true.
Proof.
  unfold some_null, every_Boolean.
  induction board as [|[[]|] rest IH]; simpl; auto; discriminate.
Qed.

(** With two different marks, a position that is not in play is a leaf of
    the search. *)
Lemma not_inPlay_leaf (botMark humanMark : Mark) (board : Board) :
  botMark <> humanMark ->
  inPlay board = false ->
  winner_is (calculateWinner board) botMark = true \/
  winner_is (calculateWinner board) humanMark = true \/
  every_Boolean board = true.
Proof.
  intros Hne Hplay. unfold inPlay in Hplay.
  destruct (calculateWinner board) as [r|] eqn:Hr; simpl.
  - destruct (decide (winner r = botMark)) as [Hb|Hb].
    + left. apply bool_decide_eq_true, Hb.
    + right. left. apply bool_decide_eq_true.
      destruct (winner r), botMark, humanMark; congruence.
  - right. right. apply not_some_null_every.
    rewrite bool_decide_eq_false_2 in Hplay by (intros [? ?]; discriminate).
    exact Hplay.
Qed.

Lemma leaf_not_inPlay (botMark humanMark : Mark) (board : Board) :
  winner_is (calculateWinner board) botMark = false ->
  winner_is (calculateWinner board) humanMark = false ->
  every_Boolean board = false ->
  botMark <> humanMark ->
  inPlay board = true.
Proof.
  intros Hb Hh Hfull Hne.
  destruct (inPlay board) eqn:Hplay; [reflexivity|].
  destruct (not_inPlay_leaf botMark humanMark board Hne Hplay) as [H | [H | H]];
    congruence.
Qed.

(** X1: on a nine-cell grid the search returns, with the depth
    [getBestMove] gives it and with any larger one alike; it hands the
    array back as it got it; its score is -1, 0 or 1; and while the game
    is on it names a move. *)
Theorem minimax_returns_and_restores (botMark humanMark : Mark)
    (board : Board) (isMax : bool) :
  length board = 9 ->
  exists best,
    minimax searchFuel botMark humanMark board isMax = Some (best, board) /\
    (forall fuel, searchFuel <= fuel ->
       minimax fuel botMark humanMark board isMax = Some (best, board)) /\
    (score best = Fin (-1) \/ score best = Fin 0 \/ score best = Fin 1) /\
    (inPlay board = true -> isMax = true -> exists m, move best = Some m).
Proof.
  intros Hlen.
  destruct (searchFuel_enough botMark humanMark board isMax Hlen) as [best Hbest].
  exists best. split; [exact Hbest|]. split; [|split].
  - intros fuel Hfuel. eapply minimax_mono; eauto.
  - destruct (minimax_score_fin _ _ _ _ _ _ _ Hlen Hbest) as (z & -> & Hz).
    assert (z = (-1)%Z \/ z = 0%Z \/ z = 1%Z) as [-> | [-> | ->]] by lia; auto.
  - intros Hplay ->.
    destruct (minimax_root_choice _ _ _ _ _ _ Hlen Hplay Hbest) as (m & _ & _ & Hm & _).
    eauto.
Qed.

Lemma minimax_returns_and_restores_witness :
  length lostBoard = 9 /\
  exists best,
    minimax searchFuel O X lostBoard true = Some (best, lostBoard) /\
    (score best = Fin (-1) \/ score best = Fin 0 \/ score best = Fin 1).
Proof.
  split; [reflexivity|].
  destruct (minimax_returns_and_restores O X lostBoard true eq_refl)
    as (best & Hbest & _ & Hscore & _).
  exists best. split; assumption.
Defined.

(** X4: on a grid where the game is over the search names no move and
    [getBestMove] falls back to [getRandomMove]; on a full grid that gives
    [undefined]. *)
Theorem getBestMove_falls_back_when_over (botMark humanMark : Mark)
    (board : Board) (r : nat) :
  botMark <> humanMark ->
  inPlay board = false ->
  getBestMove board botMark humanMark r = getRandomMove board r /\
  (every_Boolean board = true -> getBestMove board botMark humanMark r = None).
Proof.
  intros Hne Hplay.
  assert (Hget : getBestMove board botMark humanMark r = getRandomMove board r).
  { unfold getBestMove, searchFuel. cbn [minimax].
    destruct (not_inPlay_leaf _ _ _ Hne Hplay) as [H | [H | H]].
    - rewrite H. reflexivity.
    - destruct (winner_is (calculateWinner board) botMark); [reflexivity|].
      rewrite H. reflexivity.
    - destruct (winner_is (calculateWinner board) botMark); [reflexivity|].
      destruct (winner_is (calculateWinner board) humanMark); [reflexivity|].
      rewrite H. reflexivity. }
  split; [exact Hget|].
  intros Hfull. rewrite Hget. unfold getRandomMove.
  apply lookup_ge_None. rewrite emptyCells_length.
  clear -Hfull. unfold every_Boolean in Hfull.
  induction board as [|[m|] rest IH]; simpl in *; [lia| |discriminate].
  rewrite IH by exact Hfull. lia.
Qed.

Lemma getBestMove_falls_back_when_over_witness :
  O <> X /\ inPlay drawnBoard = false /\
  getBestMove drawnBoard O X 0 = None.
Proof.
  split; [discriminate|]. split; [reflexivity|].
  refine (proj2 (getBestMove_falls_back_when_over O X drawnBoard 0 _ eq_refl) eq_refl).
  discriminate.
Defined.

(** *** The score and forced wins *)

Lemma winner_is_wonBy (mark : Mark) (board : Board) :
  winner_is (calculateWinner board) mark = true <-> wonBy mark board.
Proof.
  unfold winner_is, wonBy. destruct (calculateWinner board) as [r|].
  - rewrite bool_decide_eq_true. split; [eauto|]. intros (r' & [= <-] & H). exact H.
  - split; [discriminate|]. intros (r' & H & _). discriminate.
Qed.

(** A score below 0 means that the human can force a win. *)
Lemma negative_score_forced (botMark humanMark : Mark) (fuel : nat) :
  botMark <> humanMark ->
  forall board botToMove best board',
    length board = 9 ->
    minimax fuel botMark humanMark board botToMove = Some (best, board') ->
    num_lt (score best) (Fin 0) = true ->
    human_forces_win botMark humanMark botToMove board.
Proof.
  intros Hne. induction fuel as [|fuel IH]; intros board botToMove best board' Hlen;
    cbn [minimax]; [discriminate|].
  destruct (winner_is (calculateWinner board) botMark) eqn:Hb;
    [intros [= <- _]; discriminate|].
  destruct (winner_is (calculateWinner board) humanMark) eqn:Hh.
  { intros _ _. apply forced_won, winner_is_wonBy, Hh. }
  destruct (every_Boolean board) eqn:Hfull; [intros [= <- _]; discriminate|].
  pose proof (leaf_not_inPlay _ _ _ Hb Hh Hfull Hne) as Hplay.
  pose proof (minimax_restores fuel botMark humanMark) as Hres.
  intros Hloop Hneg. destruct botToMove.
  - apply forced_bot; [exact Hplay|]. intros c Hc.
    destruct (loop_bound _ botMark humanMark true Hres _ _ _ _ _ Hloop) as [_ Hall].
    destruct (Hall c) as (r & b & Hr & Hle).
    + apply elem_of_seq. apply lookup_lt_Some in Hc. lia.
    + rewrite Hc. reflexivity.
    + eapply IH; [|exact Hr|].
      * rewrite length_insert. exact Hlen.
      * eapply num_le_lt_trans; [exact Hle|exact Hneg].
  - destruct (loop_first _ botMark humanMark false Hres _ _ _ _ _ Hloop)
      as [-> | (before & i & after & r & b & Hsplit & Hi & Hr & -> & _)];
      [discriminate|].
    destruct (seq_split_before _ _ _ _ Hsplit) as [Hi9 _].
    apply (forced_human _ _ board i); [exact Hplay|apply falsy_free; [lia|exact Hi]|].
    eapply IH; [|exact Hr|exact Hneg].
    rewrite length_insert. exact Hlen.
Qed.

(** A position with a forced win for the human is not scored 0 or more. *)
Lemma forced_not_safe (botMark humanMark : Mark) (botToMove : bool) (board : Board) :
  botMark <> humanMark ->
  human_forces_win botMark humanMark botToMove board ->
  length board = 9 ->
  ~ safe botMark humanMark botToMove board.
Proof.
  intros Hne Hforced.
  induction Hforced as [t board Hwon | board Hplay _ IH | board c Hplay Hc _ IH];
    intros Hlen Hsafe.
  - exact (safe_not_won _ _ _ _ Hne Hsafe Hwon).
  - destruct (getBestMove_returns botMark humanMark board Hlen Hplay)
      as (m & Hm & _ & Hget).
    apply (IH m Hm); [rewrite length_insert; exact Hlen|].
    exact (safe_bot_move _ _ _ 0 m Hlen Hplay Hsafe (Hget 0)).
  - apply IH; [rewrite length_insert; exact Hlen|].
    eapply safe_human_move; eauto.
Qed.

(** X2: the sign of the score is exact.  With the bot to move on a
    nine-cell grid, the search scores the position 0 or more exactly when
    the human cannot force a win from it. *)
Theorem score_nonnegative_iff_no_forced_loss (botMark humanMark : Mark) (board : Board) :
  botMark <> humanMark ->
  length board = 9 ->
  not_lost botMark humanMark board <-> ~ human_forces_win botMark humanMark true board.
Proof.
  intros Hne Hlen. split.
  - intros Hnot Hforced.
    exact (forced_not_safe _ _ _ _ Hne Hforced Hlen (not_lost_safe _ _ _ Hnot)).
  - intros Hfree.
    destruct (searchFuel_enough botMark humanMark board true Hlen) as [best Hbest].
    destruct (num_lt (score best) (Fin 0)) eqn:Hscore.
    + destruct Hfree. eapply negative_score_forced; eauto.
    + exists best, board. auto.
Qed.

Lemma score_nonnegative_iff_no_forced_loss_witness :
  O <> X /\ length lostBoard = 9 /\
  (not_lost O X lostBoard <-> ~ human_forces_win O X true lostBoard).
Proof.
  split; [discriminate|]. split; [reflexivity|].
  apply score_nonnegative_iff_no_forced_loss; [discriminate|reflexivity].
Defined.

(** *** Positions the bot wins *)

Lemma scored_at_least_searchFuel (bound : Z) (botMark humanMark : Mark)
    (botToMove : bool) (board : Board) :
  length board = 9 ->
  scored_at_least bound botMark humanMark botToMove board ->
  exists best,
    minimax searchFuel botMark humanMark board botToMove = Some (best, board) /\
    num_lt (score best) (Fin bound) = false.
Proof.
  intros Hlen (fuel & best & b & Hmin & Hscore).
  destruct (searchFuel_enough botMark humanMark board botToMove Hlen) as [best' Hbest'].
  pose proof (minimax_agree _ _ _ _ _ _ _ _ Hmin Hbest') as [= -> ->].
  eauto.
Qed.

Lemma scored_at_least_bot_move (bound : Z) (botMark humanMark : Mark)
    (board : Board) (r m : nat) :
  length board = 9 ->
  inPlay board = true ->
  scored_at_least bound botMark humanMark true board ->
  getBestMove board botMark humanMark r = Some m ->
  scored_at_least bound botMark humanMark false (<[m := Some botMark]> board).
Proof.
  intros Hlen Hplay Hscored Hget.
  apply (scored_at_least_searchFuel _ _ _ _ _ Hlen) in Hscored as (best & Hbest & Hscore).
  destruct (minimax_root_choice _ _ _ _ _ _ Hlen Hplay Hbest)
    as (m' & r0 & b0 & Hmove & _ & _ & Hr0 & Heq & _).
  unfold getBestMove in Hget. rewrite Hbest, Hmove in Hget. injection Hget as <-.
  exists 9, r0, b0. split; [exact Hr0|]. rewrite <- Heq. exact Hscore.
Qed.

Lemma scored_at_least_human_move (bound : Z) (botMark humanMark : Mark)
    (board : Board) (c : nat) :
  length board = 9 ->
  inPlay board = true ->
  scored_at_least bound botMark humanMark false board ->
  board !! c = Some None ->
  scored_at_least bound botMark humanMark true (<[c := Some humanMark]> board).
Proof.
  intros Hlen Hplay (fuel & best & b & Hmin & Hscore) Hc.
  destruct fuel as [|fuel]; [discriminate|].
  destruct (minimax_reply_bound _ _ _ _ _ _ c Hlen Hplay Hmin Hc) as (r & b' & Hr & Hle).
  exists fuel, r, b'. split; [exact Hr|].
  eapply num_le_trans; [exact Hscore|exact Hle].
Qed.

Lemma scored_at_least_play (bound : Z) (botMark humanMark : Mark) (p q : Board * bool) :
  rtc (play_step botMark humanMark) p q ->
  length p.1 = 9 -> scored_at_least bound botMark humanMark p.2 p.1 ->
  length q.1 = 9 /\ scored_at_least bound botMark humanMark q.2 q.1.
Proof.
  induction 1 as [p | p p' q Hstep _ IH]; [auto|].
  intros Hlen Hscored. apply IH.
  - destruct Hstep; simpl in *; rewrite length_insert; exact Hlen.
  - destruct Hstep as [board r m Hplay Hget | board c Hplay Hc]; simpl in *.
    + eapply scored_at_least_bot_move; eauto.
    + eapply scored_at_least_human_move; eauto.
Qed.

(** A finished game scored 1 is a win of the bot. *)
Lemma scored_one_over_won (botMark humanMark : Mark) (botToMove : bool) (board : Board) :
  botMark <> humanMark ->
  scored_at_least 1 botMark humanMark botToMove board ->
  inPlay board = false ->
  wonBy botMark board.
Proof.
  intros Hne (fuel & best & b & Hmin & Hscore) Hplay.
  destruct fuel as [|fuel]; [discriminate|]. cbn [minimax] in Hmin.
  destruct (winner_is (calculateWinner board) botMark) eqn:Hb;
    [apply winner_is_wonBy, Hb|].
  destruct (winner_is (calculateWinner board) humanMark) eqn:Hh;
    [injection Hmin as <- _; discriminate|].
  destruct (every_Boolean board) eqn:Hfull; [injection Hmin as <- _; discriminate|].
  pose proof (leaf_not_inPlay _ _ _ Hb Hh Hfull Hne). congruence.
Qed.

(** A move that completes a line of the bot makes the position score 1. *)
Lemma winning_move_scores_one (botMark humanMark : Mark) (board : Board) (c : nat) :
  length board = 9 ->
  inPlay board = true ->
  board !! c = Some None ->
  wonBy botMark (<[c := Some botMark]> board) ->
  scored_at_least 1 botMark humanMark true board.
Proof.
  intros Hlen Hplay Hc Hwon.
  destruct (searchFuel_enough botMark humanMark board true Hlen) as [best Hbest].
  destruct (minimax_root_choice _ _ _ _ _ _ Hlen Hplay Hbest)
    as (m & r0 & b0 & _ & _ & _ & _ & Heq & Hall).
  destruct (Hall c) as (rc & bc & Hrc & Hle & _);
    [apply lookup_lt_Some in Hc; lia|exact Hc|].
  cbn [minimax] in Hrc. apply winner_is_wonBy in Hwon. rewrite Hwon in Hrc.
  injection Hrc as <- _.
  exists searchFuel, best, board. split; [exact Hbest|]. rewrite Heq. exact Hle.
Qed.

(** X3: the bot converts a won position.  On a nine-cell grid that the
    search scores 1 with the bot to move, in particular whenever some free
    cell completes a line of the bot, play in which the bot moves by
    [getBestMove] keeps the score at 1, never meets a win of the human, and
    every grid on which the game is over is a win of the bot. *)
Theorem getBestMove_converts_won_position (botMark humanMark : Mark) (squares : Board) :
  botMark <> humanMark ->
  length squares = 9 ->
  (forall c, inPlay squares = true -> squares !! c = Some None ->
     wonBy botMark (<[c := Some botMark]> squares) ->
     scored_at_least 1 botMark humanMark true squares) /\
  (scored_at_least 1 botMark humanMark true squares ->
   forall final botToMove,
     rtc (play_step botMark humanMark) (squares, true) (final, botToMove) ->
     scored_at_least 1 botMark humanMark botToMove final /\
     ~ wonBy humanMark final /\
     (inPlay final = false -> wonBy botMark final)).
Proof.
  intros Hne Hlen. split.
  - intros c Hplay Hc Hwon. eapply winning_move_scores_one; eauto.
  - intros Hscored final botToMove Hplay.
    destruct (scored_at_least_play _ _ _ _ _ Hplay Hlen Hscored) as [_ Hfinal].
    simpl in Hfinal. split; [exact Hfinal|]. split.
    + apply (safe_not_won botMark humanMark botToMove); [exact Hne|].
      destruct Hfinal as (fuel & best & b & Hmin & Hscore).
      exists fuel, best, b. split; [exact Hmin|].
      eapply (num_le_trans (Fin 0) (Fin 1)); [reflexivity|exact Hscore].
    + intros Hover. eapply scored_one_over_won; eauto.
Qed.

Lemma getBestMove_converts_won_position_witness :
  O <> X /\ length winnableBoard = 9 /\
  forall final botToMove,
    rtc (play_step O X) (winnableBoard, true) (final, botToMove) ->
    ~ wonBy X final /\ (inPlay final = false -> wonBy O final).
Proof.
  split; [discriminate|]. split; [reflexivity|].
  destruct (getBestMove_converts_won_position O X winnableBoard) as [Hone Hplay];
    [discriminate|reflexivity|].
  intros final botToMove Hrtc.
  refine (proj2 (Hplay (Hone 5 eq_refl eq_refl _) final botToMove Hrtc)).
  eexists. split; reflexivity.
Defined.

(** ** Results about the component *)

Import TicTacToe Frame.

Lemma scoreEffect_frame (s s' : State) :
  scoreEffect s = Some s' -> same_but_scores s s'.
Proof.
  unfold scoreEffect, same_but_scores.
  destruct (squares s) as [sq|]; simpl; [|discriminate].
  destruct (TicTacToe.winner s) as [[[]|]|]; simpl; try discriminate.
  - intros [= <-]. simpl. auto 10.
  - intros [= <-]. simpl. auto 10.
  - destruct (every_Boolean sq); intros [= <-]; simpl; auto 10.
Qed.

Lemma same_but_scores_refl (s : State) : same_but_scores s s.
Proof. unfold same_but_scores. auto 10. Qed.

Lemma winner_squares (s : State) (sq : Board) :
  squares s = Some sq ->
  TicTacToe.winner s = Some (winner_of (calculateWinner sq)).
Proof.
  unfold TicTacToe.winner, winnerResult. intros ->. reflexivity.
Qed.

Lemma scoreEffect_total (s : State) (sq : Board) :
  squares s = Some sq -> exists s', scoreEffect s = Some s'.
Proof.
  intros Hsq. unfold scoreEffect. rewrite (winner_squares s sq Hsq), Hsq. simpl.
  destruct (winner_of (calculateWinner sq)) as [[]|]; eauto.
  destruct (every_Boolean sq); eauto.
Qed.

(** A render of a state that has a board succeeds, and changes at most the
    score tally. *)
Lemma commit_total (d : option (option Mark * nat)) (s : State) (sq : Board) :
  squares s = Some sq ->
  exists c, commit d s = Some c /\
    scoreDeps c = Some (winner_of (calculateWinner sq), step s) /\
    same_but_scores s (state c) /\
    (state c = s \/ scoreEffect s = Some (state c)).
Proof.
  intros Hsq. unfold commit. rewrite (winner_squares s sq Hsq). simpl.
  case_bool_decide.
  - eexists. split; [reflexivity|]. simpl. auto using same_but_scores_refl.
  - destruct (scoreEffect_total s sq Hsq) as [s' Hs']. rewrite Hs'. simpl.
    eexists. split; [reflexivity|]. simpl. auto using scoreEffect_frame.
Qed.

Lemma commit_frame (d : option (option Mark * nat)) (s : State) (c : Component) :
  commit d s = Some c -> same_but_scores s (state c).
Proof.
  unfold commit. destruct (TicTacToe.winner s) as [w|]; simpl; [|discriminate].
  case_bool_decide.
  - intros [= <-]. apply same_but_scores_refl.
  - destruct (scoreEffect s) as [s'|] eqn:Hs'; simpl; [|discriminate].
    intros [= <-]. simpl. apply scoreEffect_frame, Hs'.
Qed.

(** On a board without outcome the score effect changes nothing. *)
Lemma commit_no_outcome (d : option (option Mark * nat)) (s : State) (sq : Board) :
  squares s = Some sq -> outcome sq = NoResult ->
  commit d s = Some {| state := s; scoreDeps := Some (None, step s) |}.
Proof.
  intros Hsq Hout. unfold commit, scoreEffect.
  rewrite (winner_squares s sq Hsq), Hsq. unfold outcome in Hout.
  destruct (calculateWinner sq) as [r|]; [discriminate|]. simpl.
  destruct (every_Boolean sq); [discriminate|].
  case_bool_decide; reflexivity.
Qed.

(** C8: [Reset], dispatched in any state of the component, leaves the
    single empty grid as the history, view index 0 and X to move, and keeps
    the score tally, the names and the mode (and the difficulty). *)
Theorem reset_reinitializes_and_frames (c : Component) :
  exists c', dispatch Reset c = Some c' /\
    history (state c') = [emptyBoard] /\
    step (state c') = 0 /\
    xIsNext (state c') = true /\
    scores (state c') = scores (state c) /\
    names (state c') = names (state c) /\
    mode (state c') = mode (state c) /\
    difficulty (state c') = difficulty (state c).
Proof.
  unfold dispatch. simpl.
  rewrite (commit_no_outcome _ (handleReset (state c)) emptyBoard); try reflexivity.
  eexists. split; [reflexivity|]. simpl. auto 10.
Qed.

(** C10: a change of the difficulty, dispatched in any state, resets the
    game (single empty grid, view index 0, X to move) and sets the
    difficulty, and keeps the mode, the names and the score tally. *)
Theorem difficulty_change_resets_game (newDiff : Difficulty) (c : Component) :
  exists c', dispatch (SetDifficulty newDiff) c = Some c' /\
    history (state c') = [emptyBoard] /\
    step (state c') = 0 /\
    xIsNext (state c') = true /\
    difficulty (state c') = newDiff /\
    mode (state c') = mode (state c) /\
    names (state c') = names (state c) /\
    scores (state c') = scores (state c).
Proof.
  unfold dispatch. simpl.
  rewrite (commit_no_outcome _ (handleDifficultyChange newDiff (state c)) emptyBoard);
    try reflexivity.
  eexists. split; [reflexivity|]. simpl. auto 10.
Qed.

Lemma mod2_Even (k : nat) : k mod 2 = 0 <-> Nat.Even k.
Proof.
  split.
  - intros H. exists (k / 2). pose proof (Nat.div_mod_eq k 2). lia.
  - intros [m ->]. rewrite Nat.mul_comm. apply Nat.Div0.mod_mul.
Qed.

Lemma mod2_Odd (k : nat) : k mod 2 <> 0 <-> Nat.Odd k.
Proof.
  rewrite mod2_Even. split.
  - intros H. destruct (Nat.Even_or_Odd k); [contradiction|assumption].
  - intros Ho He. exact (Nat.Even_Odd_False k He Ho).
Qed.

(** C7: [JumpTo k] on an index of the history shows that grid, keeps the
    history, and gives the turn to X exactly when [k] is even and to O
    exactly when [k] is odd. *)
Theorem jumpTo_turn_parity (k : nat) (c : Component) :
  k < length (history (state c)) ->
  exists c', dispatch (JumpTo k) c = Some c' /\
    step (state c') = k /\
    history (state c') = history (state c) /\
    (xIsNext (state c') = true <-> Nat.Even k) /\
    (xIsNext (state c') = false <-> Nat.Odd k).
Proof.
  intros Hk. destruct (lookup_lt_is_Some_2 _ _ Hk) as [sq Hsq].
  unfold dispatch. simpl.
  destruct (commit_total (scoreDeps c) (jumpTo k (state c)) sq Hsq)
    as (c' & -> & _ & (Hh & Hs & Hx & _) & _).
  exists c'. split; [reflexivity|]. rewrite Hs, Hh, Hx. simpl.
  repeat split; try reflexivity.
  - intros H. apply bool_decide_eq_true in H. apply mod2_Even, H.
  - intros H. apply bool_decide_eq_true, mod2_Even, H.
  - intros H. apply bool_decide_eq_false in H. apply mod2_Odd, H.
  - intros H. apply bool_decide_eq_false, mod2_Odd, H.
Qed.

Lemma jumpTo_turn_parity_witness :
  4 < length (history (state afterXWins)) /\
  exists c', dispatch (JumpTo 4) afterXWins = Some c' /\
    (xIsNext (state c') = true <-> Nat.Even 4).
Proof.
  assert (Hk : 4 < length (history (state afterXWins))) by (vm_compute; lia).
  split; [exact Hk|].
  destruct (jumpTo_turn_parity 4 afterXWins Hk) as (c' & Hd & _ & _ & He & _).
  exists c'. split; [exact Hd|exact He].
Defined.

Lemma mod2_even (k : nat) : bool_decide (k mod 2 = 0) = Nat.even k.
Proof.
  destruct (Nat.even k) eqn:He.
  - apply bool_decide_eq_true, mod2_Even, Nat.even_spec, He.
  - apply bool_decide_eq_false. intros H.
    apply mod2_Even, Nat.even_spec in H. congruence.
Qed.

Lemma outcome_NoResult (sq : Board) :
  outcome sq = NoResult <-> calculateWinner sq = None /\ every_Boolean sq = false.
Proof.
  unfold outcome. destruct (calculateWinner sq); [split; [discriminate|intros [? _]; discriminate]|].
  destruct (every_Boolean sq); split; try discriminate; auto.
  intros [_ ?]; discriminate.
Qed.

(** What an accepted click does to the state. *)
Lemma handleClick_accepted (i : nat) (s : State) (sq : Board) :
  squares s = Some sq ->
  truthy (sq !! i) = false ->
  calculateWinner sq = None ->
  handleClick i s =
    Some (setXIsNext (negb (xIsNext s))
            (setStep (length (take (step s + 1) (history s)
                              ++ [<[i := Some (if xIsNext s then X else O)]> sq]) - 1)
               (setHistory (take (step s + 1) (history s)
                            ++ [<[i := Some (if xIsNext s then X else O)]> sq]) s))).
Proof.
  intros Hsq Hi Hw. unfold handleClick.
  rewrite (winner_squares s sq Hsq), Hsq, Hw. simpl. rewrite Hi. reflexivity.
Qed.

(** What a refused click does: nothing. *)
Lemma handleClick_refused (i : nat) (s : State) (sq : Board) :
  squares s = Some sq ->
  truthy (sq !! i) = true \/ is_Some (calculateWinner sq) ->
  handleClick i s = Some s.
Proof.
  intros Hsq H. unfold handleClick.
  rewrite (winner_squares s sq Hsq), Hsq. simpl.
  destruct H as [-> | [r ->]]; [reflexivity|].
  simpl. rewrite orb_true_r. reflexivity.
Qed.

(** C5: after [JumpTo k] on an index of the history, an accepted
    [Select] (free cell, grid without outcome) keeps the entries up to [k],
    appends the successor grid, and shows it: the history has [k + 2]
    entries and the view index is [k + 1]. *)
Theorem jumpTo_select_truncates (k cell : nat) (c : Component) (sq : Board) :
  history (state c) !! k = Some sq ->
  sq !! cell = Some None ->
  outcome sq = NoResult ->
  exists c1 c2,
    dispatch (JumpTo k) c = Some c1 /\
    dispatch (Select cell) c1 = Some c2 /\
    history (state c2) =
      take (k + 1) (history (state c))
      ++ [<[cell := Some (if Nat.even k then X else O)]> sq] /\
    length (history (state c2)) = k + 2 /\
    step (state c2) = k + 1.
Proof.
  intros Hk Hcell Hout. apply outcome_NoResult in Hout as [Hw _].
  pose proof (lookup_lt_Some _ _ _ Hk) as Hlt.
  destruct (commit_total (scoreDeps c) (jumpTo k (state c)) sq Hk)
    as (c1 & Hc1 & _ & (Hh & Hs & Hx & _) & _).
  change (history (state c1) = history (state c)) in Hh.
  change (step (state c1) = k) in Hs.
  change (xIsNext (state c1) = bool_decide (k mod 2 = 0)) in Hx.
  rewrite mod2_even in Hx.
  assert (Hsq1 : squares (state c1) = Some sq).
  { unfold squares. rewrite Hh, Hs. exact Hk. }
  pose proof (handleClick_accepted cell (state c1) sq Hsq1) as Hclick.
  rewrite Hcell in Hclick. specialize (Hclick eq_refl Hw).
  rewrite Hh, Hs, Hx in Hclick.
  set (next := <[cell := Some (if Nat.even k then X else O)]> sq) in *.
  assert (Hlen : length (take (k + 1) (history (state c)) ++ [next]) = k + 2).
  { rewrite length_app, length_take. simpl. lia. }
  rewrite Hlen in Hclick.
  match type of Hclick with _ = Some ?s => set (s2 := s) in * end.
  assert (Hsq2 : squares s2 = Some next).
  { unfold squares, s2. simpl. replace (k + 2 - 1) with (k + 1) by lia.
    rewrite lookup_app_r; rewrite length_take; [|lia].
    replace (k + 1 - (k + 1) `min` length (history (state c))) with 0 by lia.
    reflexivity. }
  destruct (commit_total (scoreDeps c1) s2 next Hsq2)
    as (c2 & Hc2 & _ & (Hh2 & Hs2 & _) & _).
  exists c1, c2. split; [exact Hc1|]. split.
  - unfold dispatch. simpl. rewrite Hclick. exact Hc2.
  - rewrite Hh2, Hs2. unfold s2. simpl. repeat split; [exact Hlen|lia].
Qed.

Lemma jumpTo_select_truncates_witness :
  mount ≫= run xWinsGame = Some afterXWins /\
  length (history (state afterXWins)) = 6 /\
  exists c1 c2,
    dispatch (JumpTo 1) afterXWins = Some c1 /\
    dispatch (Select 8) c1 = Some c2 /\
    length (history (state c2)) = 1 + 2 /\
    step (state c2) = 1 + 1.
Proof.
  split; [vm_compute; reflexivity|]. split; [vm_compute; reflexivity|].
  destruct (jumpTo_select_truncates 1 8 afterXWins (<[0 := Some X]> emptyBoard))
    as (c1 & c2 & H1 & H2 & _ & Hl & Hs); [vm_compute; reflexivity..|].
  exists c1, c2. repeat split; assumption.
Defined.

(** C4, as stated, fails on the code: a click while an older grid is
    viewed is accepted.  After one move and a jump back to the start, a
    click on a free cell rewrites the history, moves the view and flips the
    turn. *)
Lemma stale_select_counterexample :
  mount ≫= run [Select 0; JumpTo 0] = Some staleView /\
  step (state staleView) < length (history (state staleView)) - 1 /\
  dispatch (Select 1) staleView = Some staleClicked /\
  history (state staleClicked) <> history (state staleView) /\
  step (state staleClicked) <> step (state staleView) /\
  xIsNext (state staleClicked) <> xIsNext (state staleView).
Proof.
  split; [vm_compute; reflexivity|]. split; [vm_compute; lia|].
  split; [vm_compute; reflexivity|].
  repeat split; vm_compute; discriminate.
Qed.

(** C4, amended: a click on an occupied cell, or on any of the nine cells
    while the viewed grid has an outcome (a winner or a draw), changes
    nothing: the handler returns the state as it is, and after the render
    the history, the view index and the turn are the same.  (A click while
    an older grid is viewed is not among the refused ones.) *)
Theorem invalid_select_is_noop (i : nat) (c : Component) (sq : Board) :
  squares (state c) = Some sq ->
  length sq = 9 ->
  i < 9 ->
  occupied sq i \/ outcome sq <> NoResult ->
  handleClick i (state c) = Some (state c) /\
  exists c', dispatch (Select i) c = Some c' /\
    history (state c') = history (state c) /\
    step (state c') = step (state c) /\
    xIsNext (state c') = xIsNext (state c).
Proof.
  intros Hsq Hlen Hi Hinvalid.
  assert (Hclick : handleClick i (state c) = Some (state c)).
  { apply (handleClick_refused i _ sq Hsq).
    destruct Hinvalid as [[m Hm] | Hterm].
    - left. rewrite Hm. reflexivity.
    - destruct (calculateWinner sq) as [r|] eqn:Hw; [right; eauto|].
      left. destruct (every_Boolean sq) eqn:Hfull.
      + apply truthy_Some, every_Boolean_true; [exact Hfull|lia].
      + destruct Hterm. apply outcome_NoResult. rewrite Hw. auto. }
  split; [exact Hclick|].
  destruct (commit_total (scoreDeps c) (state c) sq Hsq)
    as (c' & Hc' & _ & (Hh & Hs & Hx & _) & _).
  exists c'. unfold dispatch. simpl. rewrite Hclick. simpl. auto.
Qed.

Lemma invalid_select_is_noop_witness :
  squares (state afterXWins)
    = Some [Some X; Some X; Some X; None; Some O; Some O; None; None; None] /\
  handleClick 8 (state afterXWins) = Some (state afterXWins).
Proof.
  assert (Hsq : squares (state afterXWins)
    = Some [Some X; Some X; Some X; None; Some O; Some O; None; None; None])
    by (vm_compute; reflexivity).
  split; [exact Hsq|].
  refine (proj1 (invalid_select_is_noop 8 afterXWins _ Hsq eq_refl _ _)); [lia|].
  right. vm_compute. discriminate.
Defined.

(** C3 on the failing input: X wins in five clicks and is scored once;
    looking at the previous grid and back at the final one scores the same
    win a second time, although no click happened. *)
Theorem jumpTo_rescores :
  mount ≫= run xWinsGame = Some afterXWins /\
  scores (state afterXWins) = {| scoreX := 1; scoreO := 0; scoreDraw := 0 |} /\
  run lookBack afterXWins = Some afterLookBack /\
  history (state afterLookBack) = history (state afterXWins) /\
  step (state afterLookBack) = step (state afterXWins) /\
  scores (state afterLookBack) = {| scoreX := 2; scoreO := 0; scoreDraw := 0 |}.
Proof.
  repeat split; vm_compute; reflexivity.
Qed.

(** *** The bot move effect *)

Lemma isBotTurn_true (s : State) (sq : Board) :
  squares s = Some sq -> isBotTurn s = Some true ->
  calculateWinner sq = None /\ some_null sq = true.
Proof.
  intros Hsq. unfold isBotTurn. rewrite (winner_squares s sq Hsq), Hsq. simpl.
  intros [= H]. rewrite !andb_true_iff in H. destruct H as [[[_ Hw] Hnull] _].
  split; [|exact Hnull].
  destruct (calculateWinner sq) as [r|]; [|reflexivity].
  apply negb_true_iff, bool_decide_eq_false in Hw. destruct Hw. simpl. eauto.
Qed.

(** When the timer fires, the cell clicked is the one [getRandomMove]
    returns for the drawn index. *)
Lemma makeMove_getRandomMove (r : nat) (s : State) (sq : Board) :
  squares s = Some sq -> isBotTurn s = Some true ->
  makeMove r s = getRandomMove sq r ≫= fun move => handleClick move s.
Proof.
  intros Hsq Hbot. unfold makeMove, getRandomMove. rewrite Hsq, Hbot. simpl.
  destruct (isBotTurn_true s sq Hsq Hbot) as [_ Hnull].
  apply some_null_true in Hnull as [i Hi].
  pose proof (emptyCells_nonempty sq i Hi).
  case_bool_decide; [lia|reflexivity].
Qed.

(** C9: on a nine-cell grid with a free cell, every index that
    [getRandomMove] returns, and every cell that the bot move effect
    clicks, is one of 0..8 and free in that grid; and both do return a
    cell for every index drawn below the number of free cells. *)
Theorem random_move_is_empty_cell (sq : Board) :
  length sq = 9 ->
  (exists i, sq !! i = Some None) ->
  (forall r i, getRandomMove sq r = Some i -> i < 9 /\ sq !! i = Some None) /\
  0 < length (emptyCells sq) /\
  (forall r, r < length (emptyCells sq) -> exists i, getRandomMove sq r = Some i) /\
  (forall s r s', squares s = Some sq -> makeMove r s = Some s' ->
     exists i, emptyCells sq !! r = Some i /\ i < 9 /\ sq !! i = Some None /\
               handleClick i s = Some s').
Proof.
  intros Hlen [i0 Hi0].
  assert (Hempty : forall r i, emptyCells sq !! r = Some i -> i < 9 /\ sq !! i = Some None).
  { intros r i Hr. apply list_elem_of_lookup_2, elem_of_emptyCells in Hr.
    split; [|exact Hr]. apply lookup_lt_Some in Hr. lia. }
  pose proof (emptyCells_nonempty sq i0 Hi0) as Hpos.
  split; [exact Hempty|]. split; [exact Hpos|]. split.
  - intros r Hr. apply lookup_lt_is_Some_2 in Hr as [i Hi]. exists i. exact Hi.
  - intros s r s' Hsq. unfold makeMove. rewrite Hsq. simpl.
    destruct (isBotTurn s) as [[]|]; simpl; try discriminate.
    case_bool_decide; [lia|].
    destruct (emptyCells sq !! r) as [i|] eqn:Hr; simpl; [|discriminate].
    intros Hclick. exists i. destruct (Hempty r i Hr). auto.
Qed.

Lemma random_move_is_empty_cell_witness :
  length lostBoard = 9 /\
  lostBoard !! 2 = Some None /\
  forall r i, getRandomMove lostBoard r = Some i ->
    i < 9 /\ lostBoard !! i = Some None.
Proof.
  split; [reflexivity|]. split; [reflexivity|].
  refine (proj1 (random_move_is_empty_cell lostBoard eq_refl _)).
  exists 2. reflexivity.
Defined.

Lemma setDifficulty_handleClick (d : Difficulty) (i : nat) (s : State) :
  handleClick i (setDifficulty d s) = setDifficulty d <$> handleClick i s.
Proof.
  unfold handleClick, squares, TicTacToe.winner, winnerResult, squares. simpl.
  destruct (history s !! step s) as [sq|]; simpl; [|reflexivity].
  destruct (truthy (sq !! i) || bool_decide (is_Some (winner_of (calculateWinner sq))));
    reflexivity.
Qed.

Lemma setDifficulty_makeMove (d : Difficulty) (r : nat) (s : State) :
  makeMove r (setDifficulty d s) = setDifficulty d <$> makeMove r s.
Proof.
  unfold makeMove.
  change (squares (setDifficulty d s)) with (squares s).
  change (isBotTurn (setDifficulty d s)) with (isBotTurn s).
  destruct (squares s) as [sq|]; simpl; [|reflexivity].
  destruct (isBotTurn s) as [[]|]; simpl; try reflexivity.
  case_bool_decide; [reflexivity|].
  destruct (emptyCells sq !! r) as [i|]; simpl; [|reflexivity].
  apply setDifficulty_handleClick.
Qed.

Lemma setDifficulty_commit (d : Difficulty) (deps : option (option Mark * nat)) (s : State) :
  commit deps (setDifficulty d s)
  = (fun c => {| state := setDifficulty d (state c); scoreDeps := scoreDeps c |})
      <$> commit deps s.
Proof.
  unfold commit, scoreEffect.
  change (TicTacToe.winner (setDifficulty d s)) with (TicTacToe.winner s).
  change (squares (setDifficulty d s)) with (squares s).
  change (step (setDifficulty d s)) with (step s).
  destruct (TicTacToe.winner s) as [w|]; simpl; [|reflexivity].
  case_bool_decide; [reflexivity|].
  destruct (squares s) as [sq|]; simpl; [|reflexivity].
  destruct w as [[]|]; simpl; try reflexivity.
  destruct (every_Boolean sq); reflexivity.
Qed.

(** C6: the bot move effect does not read the difficulty.  In two
    components that differ only in the difficulty value the cells the bot
    can click are the same, the firing timer leads to states that again
    differ only in the difficulty, and the cell clicked is the one
    [getRandomMove] returns.  The search [getBestMove] plays no part: with
    the difficulty set to [hard] the bot can click a cell that
    [getBestMove] never returns on that grid. *)
Theorem bot_move_ignores_difficulty (d : Difficulty) (r : nat) (c : Component) :
  botMoves (state (with_difficulty d c)) = botMoves (state c) /\
  dispatch (BotTimer r) (with_difficulty d c)
    = with_difficulty d <$> dispatch (BotTimer r) c /\
  (forall sq, squares (state c) = Some sq -> isBotTurn (state c) = Some true ->
     makeMove r (state c)
     = getRandomMove sq r ≫= fun move => handleClick move (state c)) /\
  (mount ≫= run [SetMode bot; SetDifficulty hard; Select 0] = Some hardBotTurn /\
   difficulty (state hardBotTurn) = hard /\
   squares (state hardBotTurn) = Some (<[0 := Some X]> emptyBoard) /\
   1 ∈ botMoves (state hardBotTurn) /\
   forall r', getBestMove (<[0 := Some X]> emptyBoard) O X r' <> Some 1).
Proof.
  split; [reflexivity|]. split; [|split].
  - unfold dispatch, with_difficulty. simpl.
    rewrite setDifficulty_makeMove.
    destruct (makeMove r (state c)) as [s'|]; simpl; [|reflexivity].
    apply setDifficulty_commit.
  - intros sq Hsq Hbot. apply makeMove_getRandomMove; assumption.
  - split; [vm_compute; reflexivity|]. split; [vm_compute; reflexivity|].
    split; [vm_compute; reflexivity|]. split.
    + apply list_elem_of_lookup. exists 0. vm_compute. reflexivity.
    + intros r'. vm_compute. discriminate.
Qed.

(** ** Further results about the component *)

Import TicTacToe Frame View.

(** *** Grids of legal play *)

Lemma other_involutive (m : Mark) : other (other m) = m.
Proof. destruct m; reflexivity. Qed.

Lemma markAt_S (k : nat) : markAt (S k) = other (markAt k).
Proof.
  unfold markAt. rewrite Nat.even_succ, <- Nat.negb_even.
  destruct (Nat.even k); reflexivity.
Qed.

Lemma legal_length (board : Board) (mark : Mark) : legal board mark -> length board = 9.
Proof.
  induction 1; [reflexivity|]. rewrite length_insert. assumption.
Qed.

Lemma countMark_fill (board : Board) (c : nat) (m m' : Mark) :
  board !! c = Some None ->
  countMark m' (<[c := Some m]> board)
  = countMark m' board + (if bool_decide (m = m') then 1 else 0).
Proof.
  revert c. induction board as [|x rest IH]; intros [|c]; simpl; try discriminate.
  - intros [= ->].
    rewrite (bool_decide_eq_false_2 (None = Some m')) by discriminate.
    destruct (decide (m = m')) as [->|Hne].
    + rewrite !bool_decide_eq_true_2 by reflexivity. lia.
    + rewrite !bool_decide_eq_false_2 by congruence. lia.
  - intros Hc. rewrite (IH c Hc). lia.
Qed.

Lemma count_total (board : Board) :
  countNull board + countMark X board + countMark O board = length board.
Proof.
  induction board as [|[[]|] rest IH]; simpl; try lia.
Qed.

(** X has as many marks as O when it is X's turn, one more when it is
    O's. *)
Lemma legal_counts (board : Board) (mark : Mark) :
  legal board mark ->
  countMark X board = countMark O board + match mark with X => 0 | O => 1 end.
Proof.
  induction 1 as [|board mark c _ IH _ Hc]; [reflexivity|].
  rewrite !(countMark_fill _ _ _ _ Hc), IH. destruct mark; simpl; lia.
Qed.

Lemma triple_wins_fill (board : Board) (c : nat) (m m' : Mark) (t : Triple) :
  board !! c = Some None ->
  triple_wins (<[c := Some m]> board) t m' ->
  m' = m \/ triple_wins board t m'.
Proof.
  intros Hc. destruct t as [[x y] z]. simpl.
  pose proof (lookup_lt_Some _ _ _ Hc) as Hlt.
  assert (Hcell : forall j, <[c := Some m]> board !! j = Some (Some m') ->
                            m' = m \/ board !! j = Some (Some m')).
  { intros j. destruct (decide (c = j)) as [<-|Hne].
    - rewrite list_lookup_insert_eq by exact Hlt. intros [= ->]. auto.
    - rewrite list_lookup_insert_ne by exact Hne. auto. }
  intros (Hx & Hy & Hz).
  destruct (Hcell x Hx) as [->|Hx']; [auto|].
  destruct (Hcell y Hy) as [->|Hy']; [auto|].
  destruct (Hcell z Hz) as [->|Hz']; auto.
Qed.

Lemma emptyBoard_no_mark (i : nat) (m : Mark) : emptyBoard !! i <> Some (Some m).
Proof.
  unfold emptyBoard. intros H. apply lookup_replicate in H as [H _]. discriminate.
Qed.

(** On a grid of legal play every winning line belongs to the mark that
    moved last. *)
Lemma legal_winner (board : Board) (mark : Mark) :
  legal board mark ->
  forall t m, t ∈ lines -> triple_wins board t m -> m = other mark.
Proof.
  induction 1 as [|board mark c _ IH Hplay Hc]; intros t m Ht Hwin.
  - destruct t as [[x y] z]. destruct Hwin as [Hx _].
    destruct (emptyBoard_no_mark x m Hx).
  - rewrite other_involutive.
    destruct (triple_wins_fill _ _ _ _ _ Hc Hwin) as [->|Hold]; [reflexivity|].
    apply inPlay_true in Hplay as [Hnone _].
    apply scanLines_None in Hnone.
    rewrite Forall_forall in Hnone. destruct (Hnone t Ht m Hold).
Qed.

Lemma wonBy_line (mark : Mark) (board : Board) :
  wonBy mark board -> exists t, t ∈ lines /\ triple_wins board t mark.
Proof.
  intros (r & Hr & <-).
  apply scanLines_Some in Hr as (before & after & Heq & Hwin & _).
  exists (line r). split; [|exact Hwin].
  rewrite Heq. apply elem_of_app. right. left.
Qed.

(** *** The history *)

Lemma history_legal (h : list Board) :
  h !! 0 = Some emptyBoard ->
  placements h ->
  forall k sq, h !! k = Some sq -> legal sq (markAt k) /\ countNull sq + k = 9.
Proof.
  intros H0 Hpl. induction k as [|k IH]; intros sq Hk.
  - rewrite H0 in Hk. injection Hk as <-. split; [apply legal_start|reflexivity].
  - destruct (lookup_lt_is_Some_2 h k) as [sq0 Hk0];
      [apply lookup_lt_Some in Hk; lia|].
    destruct (Hpl k sq0 sq Hk0 Hk) as (cell & Hcell & Hnone & ->).
    destruct (IH sq0 Hk0) as [Hlegal Hcount].
    split.
    + rewrite markAt_S. apply legal_move; [exact Hlegal| |exact Hcell].
      apply inPlay_true. split; [exact Hnone|]. apply some_null_true. eauto.
    + pose proof (countNull_fill sq0 cell (markAt k) Hcell). lia.
Qed.

Lemma gameInvariant_frame (s s' : State) :
  same_but_scores s s' -> gameInvariant s -> gameInvariant s'.
Proof.
  unfold gameInvariant. intros (Hh & Hs & Hx & _) H.
  rewrite Hh, Hs, Hx. exact H.
Qed.

Lemma gameInvariant_squares (s : State) :
  gameInvariant s ->
  exists sq, squares s = Some sq /\ legal sq (markAt (step s)) /\
             length sq = 9 /\ countNull sq + step s = 9.
Proof.
  intros (Hlt & _ & H0 & Hpl).
  destruct (lookup_lt_is_Some_2 _ _ Hlt) as [sq Hsq].
  destruct (history_legal _ H0 Hpl _ _ Hsq) as [Hlegal Hcount].
  exists sq. repeat split; auto. eapply legal_length, Hlegal.
Qed.

Lemma gameInvariant_start (s : State) :
  history s = [emptyBoard] -> step s = 0 -> xIsNext s = true -> gameInvariant s.
Proof.
  intros Hh Hs Hx. unfold gameInvariant. rewrite Hh, Hs, Hx.
  repeat split; [simpl; lia|].
  intros k sq sq' _ Hk. destruct k; discriminate.
Qed.

(** A click keeps the game invariant. *)
Lemma handleClick_gameInvariant (i : nat) (s s' : State) :
  i < 9 ->
  gameInvariant s ->
  handleClick i s = Some s' ->
  gameInvariant s'.
Proof.
  intros Hi Hinv Hclick.
  destruct (gameInvariant_squares s Hinv) as (sq & Hsq & Hlegal & Hlen & _).
  destruct Hinv as (Hlt & Hx & H0 & Hpl).
  destruct (truthy (sq !! i)) eqn:Hocc.
  { rewrite (handleClick_refused i s sq Hsq) in Hclick by auto.
    injection Hclick as <-. repeat split; assumption. }
  destruct (calculateWinner sq) as [r|] eqn:Hw.
  { rewrite (handleClick_refused i s sq Hsq) in Hclick by (right; rewrite Hw; eauto).
    injection Hclick as <-. repeat split; assumption. }
  rewrite (handleClick_accepted i s sq Hsq Hocc Hw) in Hclick. injection Hclick as <-.
  assert (Hfree : sq !! i = Some None) by (apply falsy_free; [lia|exact Hocc]).
  assert (Htake : length (take (step s + 1) (history s)) = step s + 1).
  { rewrite length_take. lia. }
  unfold gameInvariant. cbn [history step xIsNext setXIsNext setStep setHistory].
  rewrite length_app, Htake. simpl length.
  replace (step s + 1 + 1 - 1) with (S (step s)) by lia.
  split; [lia|]. split; [|split].
  - rewrite Hx, Nat.even_succ, <- Nat.negb_even. reflexivity.
  - rewrite lookup_app_l by lia. rewrite lookup_take_lt by lia. exact H0.
  - intros k a b Ha Hb.
    destruct (decide (S k < step s + 1)) as [Hin|Hout].
    + rewrite lookup_app_l, lookup_take_lt in Ha by lia.
      rewrite lookup_app_l, lookup_take_lt in Hb by lia.
      exact (Hpl k a b Ha Hb).
    + rewrite lookup_app_r in Hb by lia. rewrite Htake in Hb.
      destruct (S k - (step s + 1)) as [|n] eqn:Hdiff; [|destruct n; discriminate].
      assert (k = step s) as -> by lia.
      rewrite lookup_app_l, lookup_take_lt in Ha by lia.
      unfold squares in Hsq. rewrite Hsq in Ha. injection Ha as <-.
      injection Hb as <-. exists i. repeat split; auto.
      unfold markAt. rewrite Hx. reflexivity.
Qed.

Lemma makeMove_cases (r : nat) (s s' : State) (sq : Board) :
  squares s = Some sq ->
  makeMove r s = Some s' ->
  isBotTurn s = Some true /\
  exists i, emptyCells sq !! r = Some i /\ sq !! i = Some None /\
            handleClick i s = Some s'.
Proof.
  intros Hsq Hmove. unfold makeMove in Hmove. rewrite Hsq in Hmove. simpl in Hmove.
  destruct (isBotTurn s) as [[]|] eqn:Hbot; simpl in Hmove; try discriminate.
  split; [reflexivity|].
  destruct (isBotTurn_true s sq Hsq Hbot) as [_ Hnull].
  apply some_null_true in Hnull as [j Hj].
  pose proof (emptyCells_nonempty sq j Hj).
  case_bool_decide; [lia|].
  destruct (emptyCells sq !! r) as [i|] eqn:Hr; simpl in Hmove; [|discriminate].
  exists i. repeat split; auto.
  apply elem_of_emptyCells. eapply list_elem_of_lookup_2, Hr.
Qed.

Lemma commit_deps (d : option (option Mark * nat)) (s : State) (c : Component) :
  commit d s = Some c ->
  exists sq, squares s = Some sq /\
    TicTacToe.winner (state c) = Some (winner_of (calculateWinner sq)) /\
    scoreDeps c = Some (winner_of (calculateWinner sq), step (state c)) /\
    same_but_scores s (state c).
Proof.
  intros Hc. pose proof (commit_frame _ _ _ Hc) as Hframe.
  destruct (squares s) as [sq|] eqn:Hsq.
  - destruct (commit_total d s sq Hsq) as (c' & Hc' & Hdeps & _).
    rewrite Hc in Hc'. injection Hc' as <-.
    exists sq. pose proof Hframe as (Hh & Hs & _).
    split; [reflexivity|]. split; [|split; [|exact Hframe]].
    + apply winner_squares. unfold squares in *. rewrite Hh, Hs. exact Hsq.
    + rewrite Hdeps, Hs. reflexivity.
  - unfold commit, TicTacToe.winner, winnerResult in Hc. rewrite Hsq in Hc. discriminate.
Qed.

(** Every event the interface can raise keeps the invariant. *)
Lemma dispatch_invariant (e : Event) (c c' : Component) :
  validEvent e ->
  invariant c ->
  dispatch e c = Some c' ->
  invariant c'.
Proof.
  intros Hvalid [Hinv _] Hd. unfold dispatch in Hd.
  destruct (handle e (state c)) as [s1|] eqn:Hh; simpl in Hd; [|discriminate].
  destruct (commit_deps _ _ _ Hd) as (sq & Hsq & Hw & Hdeps & Hframe).
  split; [|eauto].
  apply (gameInvariant_frame s1); [exact Hframe|].
  destruct e as [i| |m|d|k|mark v| |r]; simpl in Hh.
  - eapply handleClick_gameInvariant; eauto.
  - injection Hh as <-. apply gameInvariant_start; reflexivity.
  - injection Hh as <-. apply gameInvariant_start; reflexivity.
  - injection Hh as <-. apply gameInvariant_start; reflexivity.
  - injection Hh as <-. destruct Hinv as (_ & _ & H0 & Hpl).
    repeat split; auto.
    + change (k < length (history (state c))). eapply lookup_lt_Some, Hsq.
    + change (bool_decide (k mod 2 = 0) = Nat.even k). apply mod2_even.
  - injection Hh as <-. exact Hinv.
  - injection Hh as <-. exact Hinv.
  - destruct (gameInvariant_squares _ Hinv) as (sq0 & Hsq0 & _ & Hlen & _).
    destruct (makeMove_cases r _ _ sq0 Hsq0 Hh) as (_ & i & _ & Hi & Hclick).
    apply (handleClick_gameInvariant i (state c)); auto.
    apply lookup_lt_Some in Hi. lia.
Qed.

Lemma mount_mounted : mount = Some mounted.
Proof. vm_compute. reflexivity. Qed.

Lemma mounted_invariant : invariant mounted.
Proof.
  split; [apply gameInvariant_start; reflexivity|].
  exists None. split; reflexivity.
Qed.

Lemma run_invariant (es : list Event) :
  Forall validEvent es ->
  forall c c', invariant c -> run es c = Some c' -> invariant c'.
Proof.
  induction 1 as [|e es He _ IH]; intros c c' Hinv; simpl.
  - intros [= <-]. exact Hinv.
  - destruct (dispatch e c) as [c1|] eqn:Hd; simpl; [|discriminate].
    apply IH. eapply dispatch_invariant; eauto.
Qed.

Lemma reachable_invariant (c : Component) : reachable c -> invariant c.
Proof.
  intros (es & Hvalid & Hrun). rewrite mount_mounted in Hrun. simpl in Hrun.
  eapply run_invariant; eauto using mounted_invariant.
Qed.

Ltac reach_by es :=
  exists es; split; [repeat constructor; simpl; lia | vm_compute; reflexivity].

(** X6: the history records legal play.  In every component that events
    of the interface lead to, the view index is inside the history, which
    has at most ten entries and starts with the empty grid; X is to move
    exactly when the view index is even; each entry comes from the one
    before by one placement of the mark due on a free cell of a grid
    without winner; so entry [k] is a nine-cell grid of legal alternating
    play with X first. *)
Theorem history_records_legal_play (c : Component) :
  reachable c ->
  step (state c) < length (history (state c)) /\
  length (history (state c)) <= 10 /\
  xIsNext (state c) = Nat.even (step (state c)) /\
  history (state c) !! 0 = Some emptyBoard /\
  placements (history (state c)) /\
  forall k sq, history (state c) !! k = Some sq ->
    legal sq (markAt k) /\ length sq = 9.
Proof.
  intros Hreach. destruct (reachable_invariant c Hreach) as [(Hlt & Hx & H0 & Hpl) _].
  pose proof (history_legal _ H0 Hpl) as Hlegal.
  split; [exact Hlt|]. split; [|split; [exact Hx|split; [exact H0|split; [exact Hpl|]]]].
  - destruct (lookup_lt_is_Some_2 (history (state c)) (length (history (state c)) - 1))
      as [sq Hsq]; [lia|].
    destruct (Hlegal _ _ Hsq). lia.
  - intros k sq Hk. destruct (Hlegal k sq Hk) as [Hl _].
    split; [exact Hl|]. eapply legal_length, Hl.
Qed.

Lemma history_records_legal_play_witness :
  reachable afterXWins /\
  step (state afterXWins) < length (history (state afterXWins)) /\
  length (history (state afterXWins)) <= 10.
Proof.
  assert (Hreach : reachable afterXWins) by reach_by xWinsGame.
  split; [exact Hreach|].
  destruct (history_records_legal_play afterXWins Hreach) as (H1 & H2 & _).
  split; assumption.
Defined.

(** X7: a win belongs to the player who just moved.  On an entry [k] of
    the history of a reachable component that has a winner, the winner is
    the mark placed last, every winning line on the grid carries that mark,
    and the entry is the last of the history. *)
Theorem winner_moved_last (c : Component) (k : nat) (sq : Board) (m : Mark) :
  reachable c ->
  history (state c) !! k = Some sq ->
  wonBy m sq ->
  m = other (markAt k) /\
  (forall t m', t ∈ lines -> triple_wins sq t m' -> m' = m) /\
  history (state c) !! S k = None.
Proof.
  intros Hreach Hk Hwon.
  destruct (reachable_invariant c Hreach) as [(_ & _ & H0 & Hpl) _].
  destruct (history_legal _ H0 Hpl k sq Hk) as [Hl _].
  destruct (wonBy_line m sq Hwon) as (t & Ht & Hwin).
  pose proof (legal_winner _ _ Hl t m Ht Hwin) as ->.
  split; [reflexivity|]. split.
  - intros t' m' Ht' Hwin'. exact (legal_winner _ _ Hl t' m' Ht' Hwin').
  - destruct (history (state c) !! S k) as [sq'|] eqn:Hnext; [|reflexivity].
    destruct (Hpl k sq sq' Hk Hnext) as (_ & _ & Hnone & _).
    destruct Hwon as (r & Hr & _). congruence.
Qed.

Lemma winner_moved_last_witness :
  reachable afterXWins /\
  X = other (markAt 5) /\
  history (state afterXWins) !! 6 = None.
Proof.
  assert (Hreach : reachable afterXWins) by reach_by xWinsGame.
  split; [exact Hreach|].
  destruct (winner_moved_last afterXWins 5
              [Some X; Some X; Some X; None; Some O; Some O; None; None; None] X Hreach)
    as (H1 & _ & H3).
  - vm_compute. reflexivity.
  - eexists. split; vm_compute; reflexivity.
  - split; assumption.
Defined.

(** X8: marks alternate.  Entry [k] of the history of a reachable
    component holds [k] marks, as many X as O when [k] is even and one X
    more when [k] is odd. *)
Theorem marks_alternate (c : Component) (k : nat) (sq : Board) :
  reachable c ->
  history (state c) !! k = Some sq ->
  countMark X sq + countMark O sq = k /\
  countMark X sq = countMark O sq + (if Nat.even k then 0 else 1).
Proof.
  intros Hreach Hk.
  destruct (reachable_invariant c Hreach) as [(_ & _ & H0 & Hpl) _].
  destruct (history_legal _ H0 Hpl k sq Hk) as [Hlegal Hcount].
  pose proof (legal_length _ _ Hlegal) as Hlen.
  pose proof (count_total sq) as Htotal.
  pose proof (legal_counts _ _ Hlegal) as Hxo.
  split; [lia|]. rewrite Hxo. unfold markAt. destruct (Nat.even k); reflexivity.
Qed.

Lemma marks_alternate_witness :
  reachable afterXWins /\
  countMark X [Some X; Some X; Some X; None; Some O; Some O; None; None; None]
  + countMark O [Some X; Some X; Some X; None; Some O; Some O; None; None; None] = 5.
Proof.
  assert (Hreach : reachable afterXWins) by reach_by xWinsGame.
  split; [exact Hreach|].
  refine (proj1 (marks_alternate afterXWins 5 _ Hreach _)).
  vm_compute. reflexivity.
Defined.

(** *** Scoring a move *)

Lemma scoreEffect_tally (s : State) (sq : Board) :
  squares s = Some sq ->
  exists s', scoreEffect s = Some s' /\
    scores s' = tally (outcome sq) (scores s) /\ same_but_scores s s'.
Proof.
  intros Hsq. unfold scoreEffect, outcome.
  rewrite (winner_squares s sq Hsq), Hsq. simpl.
  destruct (calculateWinner sq) as [[[] l]|]; simpl.
  - eexists. split; [reflexivity|]. split; [reflexivity|]. unfold same_but_scores. auto 10.
  - eexists. split; [reflexivity|]. split; [reflexivity|]. unfold same_but_scores. auto 10.
  - destruct (every_Boolean sq); eexists; (split; [reflexivity|]);
      (split; [reflexivity|]); unfold same_but_scores; auto 10.
Qed.

(** X9: an accepted click is scored exactly once.  In a reachable
    component, a click on a free cell of a grid without winner shows the
    successor grid and adds one to the counter of its outcome: to the
    mover's wins if the move completes a line, to the draws if it fills the
    grid without one, to nothing otherwise.  A win is never scored for the
    other mark. *)
Theorem accepted_select_scores_once (i : nat) (c : Component) (sq : Board) :
  reachable c ->
  squares (state c) = Some sq ->
  sq !! i = Some None ->
  calculateWinner sq = None ->
  exists c',
    dispatch (Select i) c = Some c' /\
    squares (state c') = Some (<[i := Some (markAt (step (state c)))]> sq) /\
    scores (state c')
    = tally (outcome (<[i := Some (markAt (step (state c)))]> sq)) (scores (state c)) /\
    forall m t, outcome (<[i := Some (markAt (step (state c)))]> sq) = Win m t ->
                m = markAt (step (state c)).
Proof.
  intros Hreach Hsq Hi Hw.
  destruct (reachable_invariant c Hreach) as [Hinv (w & _ & Hdeps)].
  pose proof Hinv as (Hlt & Hx & _).
  assert (Hocc : truthy (sq !! i) = false) by (rewrite Hi; reflexivity).
  pose proof (handleClick_accepted i (state c) sq Hsq Hocc Hw) as Hclick.
  assert (Hmark : (if xIsNext (state c) then X else O) = markAt (step (state c))).
  { unfold markAt. rewrite Hx. reflexivity. }
  rewrite Hmark in Hclick.
  set (next := <[i := Some (markAt (step (state c)))]> sq) in *.
  assert (Hlen : length (take (step (state c) + 1) (history (state c)) ++ [next])
                 = step (state c) + 2).
  { rewrite length_app, length_take. simpl. lia. }
  rewrite Hlen in Hclick.
  match type of Hclick with _ = Some ?s => set (s2 := s) in * end.
  assert (Hsq2 : squares s2 = Some next).
  { unfold squares, s2. cbn [history step setXIsNext setStep setHistory].
    replace (step (state c) + 2 - 1) with (step (state c) + 1) by lia.
    rewrite lookup_app_r; rewrite length_take; [|lia].
    replace (step (state c) + 1 - (step (state c) + 1) `min` length (history (state c)))
      with 0 by lia.
    reflexivity. }
  destruct (scoreEffect_tally s2 next Hsq2) as (s3 & Heff & Hscores & Hframe).
  exists {| state := s3;
            scoreDeps := Some (winner_of (calculateWinner next), step s2) |}.
  split; [|split; [|split]].
  - unfold dispatch. cbn [handle]. rewrite Hclick. simpl.
    unfold commit. rewrite (winner_squares s2 next Hsq2). simpl.
    rewrite bool_decide_eq_false_2.
    + rewrite Heff. reflexivity.
    + rewrite Hdeps. unfold s2. cbn [step setXIsNext setStep setHistory].
      intros [= _ Hstep]. lia.
  - cbn [state]. destruct Hframe as (Hh & Hs & _).
    unfold squares in *. rewrite Hh, Hs. exact Hsq2.
  - cbn [state]. rewrite Hscores. reflexivity.
  - intros m t Hout. unfold outcome in Hout.
    destruct (calculateWinner next) as [[m' l]|] eqn:Hr;
      [|destruct (every_Boolean next); discriminate].
    simpl in Hout. injection Hout as <- _.
    destruct (gameInvariant_squares _ Hinv) as (sq0 & Hsq0 & Hlegal & _).
    rewrite Hsq in Hsq0. injection Hsq0 as <-.
    assert (Hnext : legal next (other (markAt (step (state c))))).
    { apply legal_move; [exact Hlegal| |exact Hi].
      apply inPlay_true. split; [exact Hw|]. apply some_null_true. eauto. }
    assert (Hwon : wonBy m' next) by (eexists; split; [exact Hr|reflexivity]).
    destruct (wonBy_line _ _ Hwon) as (t' & Ht' & Hwin).
    rewrite (legal_winner _ _ Hnext t' _ Ht' Hwin). apply other_involutive.
Qed.

Lemma accepted_select_scores_once_witness :
  reachable beforeXWins /\
  exists c', dispatch (Select 2) beforeXWins = Some c' /\
    scores (state c') = {| scoreX := 1; scoreO := 0; scoreDraw := 0 |}.
Proof.
  assert (Hreach : reachable beforeXWins)
    by reach_by [Select 0; Select 4; Select 1; Select 5].
  split; [exact Hreach|].
  destruct (accepted_select_scores_once 2 beforeXWins
              [Some X; Some X; None; None; Some O; Some O; None; None; None] Hreach)
    as (c' & Hd & _ & Hscores & _); [vm_compute; reflexivity..|].
  exists c'. split; [exact Hd|]. rewrite Hscores. vm_compute. reflexivity.
Defined.

(** *** The other handlers *)

(** X10: a change of the mode, dispatched in any state, starts a new game
    (single empty grid, view index 0, X to move, so it is not the bot's
    turn) in the new mode and keeps the difficulty, the names and the score
    tally. *)
Theorem mode_change_resets_game (newMode : Mode) (c : Component) :
  exists c', dispatch (SetMode newMode) c = Some c' /\
    history (state c') = [emptyBoard] /\
    step (state c') = 0 /\
    xIsNext (state c') = true /\
    mode (state c') = newMode /\
    isBotTurn (state c') = Some false /\
    difficulty (state c') = difficulty (state c) /\
    names (state c') = names (state c) /\
    scores (state c') = scores (state c).
Proof.
  unfold dispatch. simpl.
  rewrite (commit_no_outcome _ (handleModeChange newMode (state c)) emptyBoard);
    try reflexivity.
  eexists. split; [reflexivity|]. simpl. repeat split.
  unfold isBotTurn. simpl. rewrite !andb_false_r. reflexivity.
Qed.

Lemma commit_same_deps (s : State) (w : option Mark) :
  TicTacToe.winner s = Some w ->
  commit (Some (w, step s)) s = Some {| state := s; scoreDeps := Some (w, step s) |}.
Proof.
  intros Hw. unfold commit. rewrite Hw. simpl.
  rewrite bool_decide_eq_true_2 by reflexivity. reflexivity.
Qed.

(** X11: renaming a mark changes that name and nothing else.  In a
    reachable component the new state is the old one with the name of the
    mark replaced: the other name, the game, the mode, the difficulty and
    the score tally are as before, and the score effect does not run. *)
Theorem rename_changes_one_name (mark : Mark) (value : string) (c : Component) :
  reachable c ->
  exists c', dispatch (RenameMark mark value) c = Some c' /\
    nameOf mark (names (state c')) = value /\
    nameOf (other mark) (names (state c')) = nameOf (other mark) (names (state c)) /\
    history (state c') = history (state c) /\
    step (state c') = step (state c) /\
    xIsNext (state c') = xIsNext (state c) /\
    mode (state c') = mode (state c) /\
    difficulty (state c') = difficulty (state c) /\
    scores (state c') = scores (state c) /\
    scoreDeps c' = scoreDeps c.
Proof.
  intros Hreach. destruct (reachable_invariant c Hreach) as [_ (w & Hw & Hdeps)].
  unfold dispatch. cbn [handle]. simpl mbind. rewrite Hdeps.
  change (step (state c)) with (step (handleNameChange mark value (state c))) at 1.
  rewrite commit_same_deps by exact Hw.
  eexists. split; [reflexivity|]. destruct mark; simpl; auto 12.
Qed.

Lemma rename_changes_one_name_witness :
  reachable afterXWins /\
  exists c', dispatch (RenameMark X "Ada") afterXWins = Some c' /\
    nameOf X (names (state c')) = "Ada"%string /\
    scores (state c') = scores (state afterXWins).
Proof.
  assert (Hreach : reachable afterXWins) by reach_by xWinsGame.
  split; [exact Hreach|].
  destruct (rename_changes_one_name X "Ada" afterXWins Hreach)
    as (c' & Hd & Hn & _ & _ & _ & _ & _ & _ & Hs & _).
  exists c'. repeat split; assumption.
Defined.

(** *** Submitting an event again *)

Lemma commit_again (d : option (option Mark * nat)) (s : State) (c : Component) :
  commit d s = Some c -> commit (scoreDeps c) (state c) = Some c.
Proof.
  intros Hc. destruct (commit_deps _ _ _ Hc) as (sq & _ & Hw & Hdeps & _).
  rewrite Hdeps, (commit_same_deps _ _ Hw). destruct c as [s' d']. simpl in *.
  congruence.
Qed.

Lemma state_eta (s s' : State) :
  history s' = history s -> step s' = step s -> xIsNext s' = xIsNext s ->
  mode s' = mode s -> difficulty s' = difficulty s -> names s' = names s ->
  editingNames s' = editingNames s -> scores s' = scores s -> s' = s.
Proof.
  destruct s, s'. simpl. intros; subst. reflexivity.
Qed.

(** Once the handler of a repeatable event has run and the state has been
    rendered, the handler changes nothing. *)
Lemma handle_again (e : Event) (s s1 s2 : State) :
  repeatable e ->
  gameInvariant s ->
  handle e s = Some s1 ->
  same_but_scores s1 s2 ->
  handle e s2 = Some s2.
Proof.
  intros Hrep Hinv Hh (Hh2 & Hs2 & Hx2 & Hm2 & Hd2 & Hn2 & He2).
  destruct e as [i| |m|d|k|mark v| |r]; simpl in Hrep, Hh; try contradiction.
  - destruct (gameInvariant_squares s Hinv) as (sq & Hsq & _ & Hlen & _).
    assert (Hsame : forall sq1, squares s1 = Some sq1 ->
              truthy (sq1 !! i) = true \/ is_Some (calculateWinner sq1) ->
              handleClick i s2 = Some s2).
    { intros sq1 Hsq1 Hcond. apply (handleClick_refused i s2 sq1); [|exact Hcond].
      unfold squares in *. rewrite Hh2, Hs2. exact Hsq1. }
    destruct (truthy (sq !! i)) eqn:Hocc.
    { rewrite (handleClick_refused i s sq Hsq) in Hh by auto.
      injection Hh as <-. apply (Hsame sq Hsq). auto. }
    destruct (calculateWinner sq) as [r|] eqn:Hw.
    { rewrite (handleClick_refused i s sq Hsq) in Hh by (right; rewrite Hw; eauto).
      injection Hh as <-. apply (Hsame sq Hsq). right. rewrite Hw. eauto. }
    rewrite (handleClick_accepted i s sq Hsq Hocc Hw) in Hh. injection Hh as <-.
    destruct Hinv as (Hlt & _).
    apply (Hsame (<[i := Some (if xIsNext s then X else O)]> sq)).
    + unfold squares. cbn [history step setXIsNext setStep setHistory].
      rewrite length_app, length_take. simpl length.
      rewrite lookup_app_r; rewrite length_take; [|lia].
      replace ((step s + 1) `min` length (history s) + 1 - 1
               - (step s + 1) `min` length (history s)) with 0 by lia.
      reflexivity.
    + left. rewrite list_lookup_insert_eq by lia. reflexivity.
  - injection Hh as <-. cbn [handle]. f_equal. apply state_eta; simpl in *; auto.
  - injection Hh as <-. cbn [handle]. f_equal. apply state_eta; simpl in *; auto.
  - injection Hh as <-. cbn [handle]. f_equal. apply state_eta; simpl in *; auto.
  - injection Hh as <-. cbn [handle]. f_equal.
    change (step (jumpTo k s)) with k in Hs2.
    change (xIsNext (jumpTo k s)) with (bool_decide (k mod 2 = 0)) in Hx2.
    apply state_eta; cbn [jumpTo history step xIsNext mode difficulty names
                          editingNames scores setXIsNext setStep]; auto.
  - injection Hh as <-. cbn [handle]. f_equal. apply state_eta; simpl in *; auto.
    rewrite Hn2. destruct mark; reflexivity.
Qed.

(** X12: submitting the same event again changes nothing.  For a click on
    a cell, a reset, a change of mode or difficulty, a jump and a renaming:
    if the event leads a reachable component to [c1], the same event
    dispatched in [c1] leads to [c1] again. *)
Theorem repeated_event_is_noop (e : Event) (c c1 : Component) :
  repeatable e ->
  reachable c ->
  dispatch e c = Some c1 ->
  dispatch e c1 = Some c1.
Proof.
  intros Hrep Hreach Hd. destruct (reachable_invariant c Hreach) as [Hinv _].
  unfold dispatch in *.
  destruct (handle e (state c)) as [s1|] eqn:Hh; simpl in Hd; [|discriminate].
  rewrite (handle_again e (state c) s1 (state c1) Hrep Hinv Hh (commit_frame _ _ _ Hd)).
  simpl. eapply commit_again, Hd.
Qed.

Lemma repeated_event_is_noop_witness :
  reachable beforeXWins /\
  exists c1, dispatch (Select 2) beforeXWins = Some c1 /\
             dispatch (Select 2) c1 = Some c1.
Proof.
  assert (Hreach : reachable beforeXWins)
    by reach_by [Select 0; Select 4; Select 1; Select 5].
  split; [exact Hreach|].
  destruct (dispatch (Select 2) beforeXWins) as [c1|] eqn:Hd;
    [|vm_compute in Hd; discriminate].
  exists c1. split; [reflexivity|].
  apply (repeated_event_is_noop (Select 2) beforeXWins c1); [simpl; lia|exact Hreach|exact Hd].
Defined.

(** *** The bot's turn and the buttons *)

Lemma isBotTurn_parts (s : State) :
  isBotTurn s = Some true ->
  mode s = bot /\ isLatestStep s = true /\ xIsNext s = false.
Proof.
  unfold isBotTurn.
  destruct (squares s) as [sq|]; simpl; [|discriminate].
  destruct (TicTacToe.winner s) as [w|]; simpl; [|discriminate].
  intros [= H]. rewrite !andb_true_iff in H.
  destruct H as [[[[Hm Hl] _] _] Hx].
  apply bool_decide_eq_true in Hm. apply negb_true_iff in Hx. auto.
Qed.

Lemma isLatestStep_take (s : State) :
  isLatestStep s = true -> take (step s + 1) (history s) = history s.
Proof.
  unfold isLatestStep. intros H. apply bool_decide_eq_true in H.
  apply take_ge. lia.
Qed.

(** X13: the bot's move is a legal move of O.  When the timer of the bot
    move effect fires with a draw below the number of free cells, the click
    is accepted: the cell is free, the grid with O on it is appended to the
    history, it is shown, and the turn goes to X, so no further timer is
    pending.  The timer only fires on the bot's turn: in bot mode, on the
    latest grid, with O to move. *)
Theorem bot_timer_places_O (r : nat) (c : Component) (sq : Board) :
  squares (state c) = Some sq ->
  (forall c', dispatch (BotTimer r) c = Some c' ->
     mode (state c) = bot /\ isLatestStep (state c) = true /\
     xIsNext (state c) = false /\ calculateWinner sq = None) /\
  (isBotTurn (state c) = Some true ->
   r < length (emptyCells sq) ->
   exists i c',
     emptyCells sq !! r = Some i /\
     sq !! i = Some None /\
     dispatch (BotTimer r) c = Some c' /\
     history (state c') = history (state c) ++ [<[i := Some O]> sq] /\
     step (state c') = step (state c) + 1 /\
     xIsNext (state c') = true /\
     isBotTurn (state c') = Some false).
Proof.
  intros Hsq. split.
  - intros c' Hd. unfold dispatch in Hd. cbn [handle] in Hd.
    destruct (makeMove r (state c)) as [s1|] eqn:Hmove; [|discriminate].
    destruct (makeMove_cases r _ _ sq Hsq Hmove) as (Hbot & _).
    destruct (isBotTurn_parts _ Hbot) as (Hm & Hl & Hx).
    destruct (isBotTurn_true _ sq Hsq Hbot) as [Hw _]. auto.
  - intros Hbot Hr.
    destruct (isBotTurn_parts _ Hbot) as (Hm & Hl & Hx).
    destruct (isBotTurn_true _ sq Hsq Hbot) as [Hw _].
    destruct (lookup_lt_is_Some_2 _ _ Hr) as [i Hi].
    assert (Hfree : sq !! i = Some None).
    { apply elem_of_emptyCells. eapply list_elem_of_lookup_2, Hi. }
    assert (Hocc : truthy (sq !! i) = false) by (rewrite Hfree; reflexivity).
    pose proof (handleClick_accepted i (state c) sq Hsq Hocc Hw) as Hclick.
    rewrite (isLatestStep_take _ Hl), Hx in Hclick.
    assert (Hstep : length (history (state c) ++ [<[i := Some O]> sq]) - 1
                    = step (state c) + 1).
    { rewrite length_app. simpl.
      unfold isLatestStep in Hl. apply bool_decide_eq_true in Hl. lia. }
    rewrite Hstep in Hclick.
    match type of Hclick with _ = Some ?s => set (s2 := s) in * end.
    assert (Hsq2 : squares s2 = Some (<[i := Some O]> sq)).
    { unfold squares, s2. cbn [history step setXIsNext setStep setHistory].
      unfold isLatestStep in Hl. apply bool_decide_eq_true in Hl.
      rewrite lookup_app_r by lia.
      replace (step (state c) + 1 - length (history (state c))) with 0 by lia.
      reflexivity. }
    destruct (commit_total (scoreDeps c) s2 _ Hsq2)
      as (c' & Hc' & _ & (Hh & Hs & Hxn & Hmode & _) & _).
    exists i, c'. split; [exact Hi|]. split; [exact Hfree|]. split.
    { unfold dispatch. cbn [handle].
      rewrite (makeMove_getRandomMove r _ sq Hsq Hbot). unfold getRandomMove.
      rewrite Hi. simpl. rewrite Hclick. exact Hc'. }
    rewrite Hh, Hs, Hxn. repeat split.
    unfold isBotTurn, squares, TicTacToe.winner, winnerResult, squares.
    rewrite Hh, Hs, Hxn. fold (squares s2). rewrite Hsq2. simpl.
    rewrite andb_false_r. reflexivity.
Qed.

Lemma bot_timer_places_O_witness :
  squares (state botToMove) = Some (<[0 := Some X]> emptyBoard) /\
  isBotTurn (state botToMove) = Some true /\
  exists i c',
    emptyCells (<[0 := Some X]> emptyBoard) !! 3 = Some i /\
    dispatch (BotTimer 3) botToMove = Some c' /\
    xIsNext (state c') = true.
Proof.
  assert (Hsq : squares (state botToMove) = Some (<[0 := Some X]> emptyBoard))
    by (vm_compute; reflexivity).
  assert (Hbot : isBotTurn (state botToMove) = Some true) by (vm_compute; reflexivity).
  split; [exact Hsq|]. split; [exact Hbot|].
  destruct (proj2 (bot_timer_places_O 3 botToMove _ Hsq) Hbot)
    as (i & c' & Hi & _ & Hd & _ & _ & Hx & _); [vm_compute; lia|].
  exists i, c'. repeat split; assumption.
Defined.



(** X15: the status line tells the outcome.  For a state with a board the
    line is "Draw!" exactly when the grid is full without a winning line,
    it starts with "Winner: " exactly when a line wins and then names the
    winning mark's player, and otherwise it is a "Next: " line. *)
Theorem status_tells_outcome (s : State) (sq : Board) :
  squares s = Some sq ->
  exists text, status s = Some text /\
    (text = "Draw!"%string <-> outcome sq = Draw) /\
    (forall m t, outcome sq = Win m t ->
       text = ("Winner: " ++ nameOf m (names s))%string) /\
    ((exists name, text = ("Winner: " ++ name)%string) <->
     exists m t, outcome sq = Win m t) /\
    ((exists name, text = ("Next: " ++ name)%string) <-> outcome sq = NoResult).
Proof.
  intros Hsq. unfold status, outcome.
  rewrite (winner_squares s sq Hsq), Hsq. simpl.
  destruct (calculateWinner sq) as [[m l]|]; simpl.
  - eexists. split; [reflexivity|]. repeat split; try discriminate; eauto.
    + intros m' t [= <- _]. reflexivity.
    + intros [name Hname]. discriminate.
  - destruct (every_Boolean sq).
    + eexists. split; [reflexivity|]. repeat split; try discriminate; eauto.
      * intros [name Hname]. discriminate.
      * intros (m & t & H). discriminate.
      * intros [name Hname]. discriminate.
    + eexists. split; [reflexivity|]. repeat split; try discriminate; eauto.
      * intros [name Hname]. discriminate.
      * intros (m & t & H). discriminate.
Qed.

Lemma status_tells_outcome_witness :
  squares (state afterXWins)
    = Some [Some X; Some X; Some X; None; Some O; Some O; None; None; None] /\
  exists text, status (state afterXWins) = Some text /\
    text = ("Winner: " ++ nameOf X (names (state afterXWins)))%string.
Proof.
  assert (Hsq : squares (state afterXWins)
    = Some [Some X; Some X; Some X; None; Some O; Some O; None; None; None])
    by (vm_compute; reflexivity).
  split; [exact Hsq|].
  destruct (status_tells_outcome (state afterXWins) _ Hsq) as (text & Hst & _ & Hwin & _).
  exists text. split; [exact Hst|].
  apply (Hwin X (0, 1, 2)). vm_compute. reflexivity.
Defined.

(** *** The score tally over any event *)

Lemma handleClick_scores (i : nat) (s s' : State) :
  handleClick i s = Some s' -> scores s' = scores s.
Proof.
  unfold handleClick.
  destruct (squares s) as [sq|]; simpl; [|discriminate].
  destruct (TicTacToe.winner s) as [w|]; simpl; [|discriminate].
  destruct (truthy (sq !! i) || bool_decide (is_Some w)); intros [= <-]; reflexivity.
Qed.

Lemma handle_scores (e : Event) (s s' : State) :
  handle e s = Some s' -> scores s' = scores s.
Proof.
  destruct e as [i| |m|d|k|mark v| |r]; simpl;
    try (intros [= <-]; reflexivity).
  - apply handleClick_scores.
  - unfold makeMove.
    destruct (squares s) as [sq|]; simpl; [|discriminate].
    destruct (isBotTurn s) as [[]|]; simpl; try discriminate.
    case_bool_decide; [intros [= <-]; reflexivity|].
    destruct (emptyCells sq !! r) as [i|]; simpl; [|discriminate].
    apply handleClick_scores.
Qed.

(** X16: the tally only grows, by one point at most.  Whatever the event
    and the state, after the dispatch the tally is the old one, or the old
    one with one more in the counter of the outcome of the grid now shown;
    no counter is ever lowered or cleared. *)
Theorem scores_only_grow (e : Event) (c c' : Component) :
  dispatch e c = Some c' ->
  (exists sq, squares (state c') = Some sq /\
     (scores (state c') = scores (state c) \/
      scores (state c') = tally (outcome sq) (scores (state c)))) /\
  scoreX (scores (state c)) <= scoreX (scores (state c')) /\
  scoreO (scores (state c)) <= scoreO (scores (state c')) /\
  scoreDraw (scores (state c)) <= scoreDraw (scores (state c')) /\
  scoreX (scores (state c')) + scoreO (scores (state c')) + scoreDraw (scores (state c'))
  <= scoreX (scores (state c)) + scoreO (scores (state c)) + scoreDraw (scores (state c)) + 1.
Proof.
  intros Hd. unfold dispatch in Hd.
  destruct (handle e (state c)) as [s1|] eqn:Hh; simpl in Hd; [|discriminate].
  pose proof (handle_scores _ _ _ Hh) as Hsc.
  destruct (commit_deps _ _ _ Hd) as (sq & Hsq & _ & _ & Hframe).
  assert (Hsq' : squares (state c') = Some sq).
  { destruct Hframe as (Hh' & Hs' & _). unfold squares in *. rewrite Hh', Hs'. exact Hsq. }
  assert (Hcases : scores (state c') = scores (state c) \/
                   scores (state c') = tally (outcome sq) (scores (state c))).
  { destruct (commit_total (scoreDeps c) s1 sq Hsq) as (c2 & Hc2 & _ & _ & Hstate).
    rewrite Hd in Hc2. injection Hc2 as <-.
    destruct Hstate as [-> | Heff]; [left; exact Hsc|right].
    destruct (scoreEffect_tally s1 sq Hsq) as (s3 & Heff3 & Htally & _).
    rewrite Heff in Heff3. injection Heff3 as <-. rewrite Htally, Hsc. reflexivity. }
  split; [eauto|].
  destruct Hcases as [-> | ->]; [lia|].
  destruct (outcome sq) as [|[] t|]; simpl; lia.
Qed.

Lemma scores_only_grow_witness :
  exists c', dispatch (JumpTo 4) afterXWins = Some c' /\
    scoreX (scores (state afterXWins)) <= scoreX (scores (state c')).
Proof.
  destruct (dispatch (JumpTo 4) afterXWins) as [c'|] eqn:Hd;
    [|vm_compute in Hd; discriminate].
  exists c'. split; [reflexivity|].
  exact (proj1 (proj2 (scores_only_grow (JumpTo 4) afterXWins c' Hd))).
Defined.

(** *** The difficulty value *)

(** X17: the difficulty is written and never read.  For every event but
    the change of difficulty itself, dispatching it in two components that
    differ only in the difficulty value leads to components that differ
    only in that value; and a change of difficulty leads to the same
    component from both. *)
Theorem difficulty_is_never_read (d : Difficulty) (e : Event) (c : Component) :
  match e with
  | SetDifficulty _ => dispatch e (with_difficulty d c) = dispatch e c
  | _ => dispatch e (with_difficulty d c) = with_difficulty d <$> dispatch e c
  end.
Proof.
  assert (Hcommit : forall s1 : option State,
            s1 ≫= (fun s => commit (scoreDeps c) (setDifficulty d s))
            = with_difficulty d <$> (s1 ≫= commit (scoreDeps c))).
  { intros [s1|]; simpl; [|reflexivity]. apply setDifficulty_commit. }
  destruct e as [i| |m|d'|k|mark v| |r]; unfold dispatch, with_difficulty;
    cbn [handle state scoreDeps].
  - rewrite setDifficulty_handleClick.
    destruct (handleClick i (state c)) as [s1|]; simpl; [|reflexivity].
    apply setDifficulty_commit.
  - exact (Hcommit (Some (handleReset (state c)))).
  - exact (Hcommit (Some (handleModeChange m (state c)))).
  - reflexivity.
  - exact (Hcommit (Some (jumpTo k (state c)))).
  - exact (Hcommit (Some (handleNameChange mark v (state c)))).
  - exact (Hcommit (Some (setEditingNames negb (state c)))).
  - rewrite setDifficulty_makeMove.
    destruct (makeMove r (state c)) as [s1|]; simpl; [|reflexivity].
    apply setDifficulty_commit.
Qed.
